(** * binary-table: the canvas grid widget of [src/App.tsx]

    A shallow embedding of the pointer handlers ([handleMouseDown],
    [handleMouseMove], [handleMouseUp]), of the grid and item overlay loops
    of the drawing effect and of [App]'s [handleUpdateItem], followed by the
    properties of the interaction and rendering logic.

    Conventions of the embedding.
    - JavaScript numbers that hold pixel coordinates, cell indices, item
      starts and sizes are integers ([Z]).  [Math.floor (a / b)] is [a / b]
      ([Z.div] rounds towards minus infinity), the remainder operator [%] is
      [Z.rem] (its sign follows the dividend, as in JavaScript).
    - Array indices are [nat]; [data[index]] is stdpp's list lookup, and
      reading a field of an absent element is the [TypeError] outcome.
    - React state ([draggingItem], [dragOffset]) is passed explicitly; the
      successive [setDraggingItem] / [setDragOffset] calls of one handler run
      are applied in order, so the state after the handler is the last one
      written. *)

From Stdlib Require Import ZArith Bool Lia String.
From stdpp Require Import base list.
From Equations Require Import Equations.

Local Open Scope Z_scope.

(** ** Data model *)

(** An element of the [data] prop: [{ startingPosition: number; size: number }]. *)
Record Item : Type := mkItem {
  startingPosition : Z;
  size : Z
}.

(** The [type] field of [draggingItem]: ["start" | "end" | "move"]. *)
Inductive DragType : Type :=
  | type_start
  | type_end
  | type_move.

Definition DragType_eqb (a b : DragType) : bool :=
  match a, b with
  | type_start, type_start | type_end, type_end | type_move, type_move => true
  | _, _ => false
  end.

(** The non-null value of the [draggingItem] state. *)
Record Dragging : Type := mkDragging {
  index : nat;
  type : DragType
}.

(** The two [useState] cells of [CanvasTable]. *)
Record State : Type := mkState {
  draggingItem : option Dragging;
  dragOffset : option Z
}.

Definition setDraggingItem (d : option Dragging) (st : State) : State :=
  {| draggingItem := d; dragOffset := dragOffset st |}.

Definition setDragOffset (o : option Z) (st : State) : State :=
  {| draggingItem := draggingItem st; dragOffset := o |}.

(** The state of a freshly mounted widget: [useState(null)] twice. *)
Definition initialState : State :=
  {| draggingItem := None; dragOffset := None |}.

(** The part of a [MouseEvent] the handlers read. *)
Record MouseEvent : Type := mkMouseEvent {
  clientX : Z;
  clientY : Z
}.

(** The part of [canvas.getBoundingClientRect()] the handlers read. *)
Record DOMRect : Type := mkDOMRect {
  left : Z;
  top : Z
}.

(** The constants every handler and the drawing effect declare locally. *)
Definition cellWidth : Z := 80.
Definition cellHeight : Z := 30.
Definition cols : Z := 8.
Definition rowMargin : Z := 4.
Definition cellMargin : Z := 4.

(** ** [Array.prototype.forEach] with an accumulator

    The callbacks of the source mutate variables of the enclosing handler and
    call state setters; [forEach] threads that mutable part [St] through the
    calls, in index order and without any early exit. *)

Fixpoint forEach_from {A St : Type} (f : A -> nat -> St -> St)
    (i : nat) (l : list A) (s : St) : St :=
  match l with
  | [] => s
  | a :: l' => forEach_from f (S i) l' (f a i s)
  end.

Definition forEach {A St : Type} (f : A -> nat -> St -> St)
    (l : list A) (s : St) : St :=
  forEach_from f 0 l s.

(** ** Coordinate mapper

    [Math.floor(y / cellHeight) * cols + Math.floor(x / cellWidth)], written
    once for [clickedPosition] (lines 36-37) and once for [hoveredPosition]
    (lines 88-89). *)

Definition clickedPosition (x y : Z) : Z :=
  y / cellHeight * cols + x / cellWidth.

Definition hoveredPosition (x y : Z) : Z :=
  y / cellHeight * cols + x / cellWidth.

(** ** [handleMouseDown] *)

(** Body of the first [data.forEach] (lines 41-58); the accumulator is the
    React state together with the local [isResizing]. *)
Definition borderStep (clicked x : Z) (item : Item) (index : nat)
    (acc : State * bool) : State * bool :=
  let startBorder := startingPosition item in
  let endBorder := startingPosition item + size item - 1 in
  if (clicked =? startBorder) && (Z.rem x cellWidth <=? 10) then
    (setDraggingItem (Some {| index := index; type := type_start |}) (fst acc),
     true)
  else if (clicked =? endBorder) && (cellWidth - Z.rem x cellWidth <=? 10) then
    (setDraggingItem (Some {| index := index; type := type_end |}) (fst acc),
     true)
  else acc.

(** Body of the second [data.forEach] (lines 61-69). *)
Definition moveStep (clicked : Z) (item : Item) (index : nat)
    (st : State) : State :=
  if (clicked >=? startingPosition item)
     && (clicked <? startingPosition item + size item) then
    setDragOffset (Some (clicked - startingPosition item))
      (setDraggingItem (Some {| index := index; type := type_move |}) st)
  else st.

(** [canvas] is [canvasRef.current] seen through its bounding rectangle;
    [None] is the null reference. *)
Definition handleMouseDown (canvas : option DOMRect) (data : list Item)
    (e : MouseEvent) (st : State) : State :=
  match canvas with
  | None => st
  | Some rect =>
      let x := clientX e - left rect in
      let y := clientY e - top rect in
      let clicked := clickedPosition x y in
      let '(st1, isResizing) :=
        forEach (borderStep clicked x) data (st, false) in
      if negb isResizing then forEach (moveStep clicked) data st1
      else st1
  end.

(** ** [handleMouseMove] *)

(** The locals [isOnBorder] and [isOnItem]. *)
Record Hover : Type := mkHover {
  isOnBorder : bool;
  isOnItem : bool
}.

(** Body of the [data.forEach] of lines 94-109. *)
Definition hoverStep (hovered x : Z) (item : Item) (_ : nat)
    (h : Hover) : Hover :=
  let startBorder := startingPosition item in
  let endBorder := startingPosition item + size item - 1 in
  if ((hovered =? startBorder) && (Z.rem x cellWidth <=? 10))
     || ((hovered =? endBorder) && (cellWidth - Z.rem x cellWidth <=? 10)) then
    {| isOnBorder := true; isOnItem := isOnItem h |}
  else if (hovered >=? startingPosition item)
          && (hovered <? startingPosition item + size item) then
    {| isOnBorder := isOnBorder h; isOnItem := true |}
  else h.

(** What one run of the handler does with the [onUpdateItem] prop: it is not
    called, it is called once, or the run stops on the [TypeError] of reading
    a field of [data[index]] when that element is absent. *)
Inductive Emitted : Type :=
  | NoCall
  | onUpdateItem (index : nat) (updatedItem : Item)
  | TypeError.

(** Lines 119-145, once [draggingItem] is known to be non-null. *)
Definition gestureUpdate (data : list Item) (d : Dragging)
    (dragOffset : option Z) (hovered : Z) : Emitted :=
  match data !! index d with
  | None => TypeError
  | Some item =>
      if DragType_eqb (type d) type_move then
        let newPosition := hovered - default 0 dragOffset in
        if negb (newPosition =? startingPosition item) then
          onUpdateItem (index d)
            {| startingPosition := newPosition; size := size item |}
        else NoCall
      else if DragType_eqb (type d) type_start
              && (hovered <? startingPosition item + size item - 1) then
        onUpdateItem (index d)
          {| startingPosition := hovered;
             size := size item + (startingPosition item - hovered) |}
      else if DragType_eqb (type d) type_end
              && (hovered >? startingPosition item) then
        onUpdateItem (index d)
          {| startingPosition := startingPosition item;
             size := hovered - startingPosition item + 1 |}
      else NoCall
  end.

(** The result of one run: the value written to [canvas.style.cursor]
    ([None] when nothing is written) and the use made of [onUpdateItem]. *)
Record MoveResult : Type := mkMoveResult {
  cursor : option string;
  emitted : Emitted
}.

Definition handleMouseMove (canvas : option DOMRect) (data : list Item)
    (st : State) (e : MouseEvent) : MoveResult :=
  match canvas with
  | None => {| cursor := None; emitted := NoCall |}
  | Some rect =>
      let x := clientX e - left rect in
      let y := clientY e - top rect in
      let hovered := hoveredPosition x y in
      let h := forEach (hoverStep hovered x) data
                 {| isOnBorder := false; isOnItem := false |} in
      let style :=
        if isOnBorder h then "ew-resize"%string
        else if isOnItem h then "move"%string
        else "default"%string in
      {| cursor := Some style;
         emitted :=
           match draggingItem st with
           | None => NoCall
           | Some d => gestureUpdate data d (dragOffset st) hovered
           end |}
  end.

(** ** [handleMouseUp] *)

Definition handleMouseUp (st : State) : State :=
  setDragOffset None (setDraggingItem None st).

(** ** Item overlays of the drawing effect (lines 228-255) *)

(** One iteration of the [while] loop: the row-segment it paints.  The
    fields are the locals of the loop body; [fillRect] holds the arguments
    [(adjustedX, y, adjustedWidth, height)] of the [ctx.fillRect] call. *)
Record Segment : Type := mkSegment {
  currentPosition : Z;
  row : Z;
  col : Z;
  cellsInRow : Z;
  isFirstCell : bool;
  isLastCell : bool;
  fillRect : Z * Z * Z * Z
}.

(** [Math.min(remainingSize, cols - col)] with [col = currentPosition % cols]. *)
Definition cellsInRowAt (remainingSize currentPosition : Z) : Z :=
  Z.min remainingSize (cols - Z.rem currentPosition cols).

(** The loop body up to the two assignments that end it. *)
Definition segmentAt (startingPosition size remainingSize currentPosition : Z)
    : Segment :=
  let row := currentPosition / cols in
  let col := Z.rem currentPosition cols in
  let x := col * cellWidth in
  let y := row * cellHeight + rowMargin in
  let cellsInRow := Z.min remainingSize (cols - col) in
  let isFirstCell := currentPosition =? startingPosition in
  let isLastCell :=
    currentPosition + cellsInRow - 1 =? startingPosition + size - 1 in
  let adjustedX := x + (if isFirstCell then cellMargin else 0) in
  let adjustedWidth :=
    cellsInRow * cellWidth
    - (if isFirstCell then cellMargin else 0)
    - (if isLastCell then cellMargin else 0) in
  let height := cellHeight - 2 * rowMargin in
  {| currentPosition := currentPosition;
     row := row;
     col := col;
     cellsInRow := cellsInRow;
     isFirstCell := isFirstCell;
     isLastCell := isLastCell;
     fillRect := (adjustedX, y, adjustedWidth, height) |}.

(** The [while (remainingSize > 0)] loop, by recursion on [remainingSize]. *)
Equations? drawItemLoop (startingPosition size remainingSize currentPosition : Z)
    : list Segment by wf (Z.to_nat remainingSize) lt :=
  drawItemLoop startingPosition size remainingSize currentPosition
    with Z_gt_dec remainingSize 0 => {
    | Specif.right _ => [];
    | Specif.left _ =>
        segmentAt startingPosition size remainingSize currentPosition
        :: drawItemLoop startingPosition size
             (remainingSize - cellsInRowAt remainingSize currentPosition)
             (currentPosition + cellsInRowAt remainingSize currentPosition) }.
Proof.
  (* a remainder by [cols] is below [cols]: the segment has a cell or more *)
  unfold cellsInRowAt, cols.
  match goal with
  | |- context [Z.rem ?c 8] => pose proof (Z.rem_bound_abs c 8)
  end.
  lia.
Qed.

(** Callback of [data.forEach(({ startingPosition, size }) => ...)]. *)
Definition drawItem (item : Item) : list Segment :=
  drawItemLoop (startingPosition item) (size item)
    (size item) (startingPosition item).

(** All [fillRect] segments of one run of the effect, in painting order. *)
Definition drawItems (data : list Item) : list Segment :=
  forEach (fun item _ painted => painted ++ drawItem item) data [].

(** ** [App] *)

(** The initial [data] state and the [size] prop [App] passes down. *)
Definition App_data : list Item :=
  [ {| startingPosition := 5; size := 10 |};
    {| startingPosition := 20; size := 15 |} ].

Definition App_size : Z := 48.

(** [prevData.map((item, i) => i === index ? { ...item, ...updatedItem } : item)];
    an item has no field besides the two that [updatedItem] overwrites. *)
Definition handleUpdateItem (index : nat) (updatedItem : Item)
    (prevData : list Item) : list Item :=
  imap (fun i item => if Nat.eqb i index then updatedItem else item) prevData.

(** The owner's reaction to one handler run. *)
Definition applyEmitted (em : Emitted) (data : list Item) : list Item :=
  match em with
  | onUpdateItem index updatedItem => handleUpdateItem index updatedItem data
  | _ => data
  end.


(** [canvas.width] and [canvas.height] as the drawing effect sets them
    (lines 178-183); [Math.ceil(size / cols)] is [- ((- size) / cols)]. *)
Definition rows (size : Z) : Z := - ((- size) / cols).
Definition canvasWidth : Z := cols * cellWidth.
Definition canvasHeight (size : Z) : Z := rows size * cellHeight.

(** ** Vocabulary of the properties *)

(** A canvas whose bounding rectangle starts at the client origin, and the
    pointer event at client pixel [(x, y)]. *)
Definition origin : DOMRect := {| left := 0; top := 0 |}.
Definition pointerAt (x y : Z) : MouseEvent := {| clientX := x; clientY := y |}.

(** Two items that share their start cell: the data [App] holds after item 1
    of its initial data was dragged from cell 22 to cell 7 (see
    [overlapping_data_reachable]). *)
Definition overlapping_data : list Item :=
  [ {| startingPosition := 5; size := 10 |};
    {| startingPosition := 5; size := 15 |} ].

(** The pixel [(x, y)] lies in the 80 x 30 region of column [c], row [r]. *)
Definition inCell (c r x y : Z) : Prop :=
  cellWidth * c <= x < cellWidth * (c + 1)
  /\ cellHeight * r <= y < cellHeight * (r + 1).

(** The border test of lines 45-57 for one item: which resize type, if any,
    the first [forEach] callback records for it. *)
Definition borderMatch (clicked x : Z) (item : Item) : option DragType :=
  if (clicked =? startingPosition item) && (Z.rem x cellWidth <=? 10) then
    Some type_start
  else if (clicked =? startingPosition item + size item - 1)
          && (cellWidth - Z.rem x cellWidth <=? 10) then
    Some type_end
  else None.

(** The span test of lines 63-64 for one item. *)
Definition insideSpan (clicked : Z) (item : Item) : bool :=
  (clicked >=? startingPosition item)
  && (clicked <? startingPosition item + size item).

(** The reading "the earliest-index item whose border matches is the one the
    gesture binds to", as a statement about [handleMouseDown]. *)
Definition first_border_match_wins : Prop :=
  forall (rect : DOMRect) (data : list Item) (e : MouseEvent) (st : State)
         (i : nat) (it : Item) (ty : DragType),
    let x := clientX e - left rect in
    let clicked := clickedPosition x (clientY e - top rect) in
    data !! i = Some it ->
    borderMatch clicked x it = Some ty ->
    (forall (j : nat) (it' : Item),
        (j < i)%nat -> data !! j = Some it' ->
        borderMatch clicked x it' = None) ->
    draggingItem (handleMouseDown (Some rect) data e st)
    = Some {| index := i; type := ty |}.

(** ** Grid of the drawing effect (lines 187-225) *)

(** What the grid loops put on the canvas: a [moveTo]/[lineTo] pair of the
    path that [ctx.stroke()] draws, from [(x1, y1)] to [(x2, y2)], or a
    [ctx.fillText] call whose text is the decimal form of [text]. *)
Inductive DrawOp : Type :=
  | strokeLine (x1 y1 x2 y2 : Z)
  | fillText (text x y : Z).

Definition isFillText (op : DrawOp) : bool :=
  match op with
  | fillText _ _ _ => true
  | strokeLine _ _ _ _ => false
  end.

(** Body of the inner [for] loop, for the cell of row [i] and column [j]. *)
Definition drawCell (size i j : Z) : list DrawOp :=
  let x := j * cellWidth in
  let y := i * cellHeight in
  (if i =? 0 then [strokeLine x y (x + cellWidth) y] else [])
  ++ [strokeLine (x + cellWidth) y (x + cellWidth) (y + cellHeight)]
  ++ [strokeLine x (y + cellHeight) (x + cellWidth) (y + cellHeight)]
  ++ (if j =? 0 then [strokeLine x y x (y + cellHeight)] else [])
  ++ (let position := i * cols + j in
      if position <? size then [fillText position (x + 5) (y + 15)] else []).

(** [for (let i = 0; i < rows; i++) for (let j = 0; j < cols; j++) ...]. *)
Definition drawGrid (size : Z) : list DrawOp :=
  i ← seqZ 0 (rows size); j ← seqZ 0 cols; drawCell size i j.

(** ** The owner's loop: a pointer-move followed by the merge

    [CanvasTable] gets the merged list back as its [data] prop before the
    next event is handled. *)
Definition pointerMove (canvas : option DOMRect) (st : State)
    (data : list Item) (e : MouseEvent) : list Item :=
  applyEmitted (emitted (handleMouseMove canvas data st e)) data.

Definition pointerMoves (canvas : option DOMRect) (st : State)
    (es : list MouseEvent) (data : list Item) : list Item :=
  fold_left (pointerMove canvas st) es data.

(** ** Further vocabulary *)

(** The item passes the border test of lines 45-57 (start or end). *)
Definition borderHit (clicked x : Z) (item : Item) : bool :=
  match borderMatch clicked x item with
  | Some _ => true
  | None => false
  end.

(** The pixel [(px, py)] is covered by [ctx.fillRect(x, y, w, h)]. *)
Definition inRect (r : Z * Z * Z * Z) (px py : Z) : Prop :=
  let '(x, y, w, h) := r in x <= px < x + w /\ y <= py < y + h.


(** What holds of every painted segment when the walk started at the cell
    [sp] of the grid proper with [sz] cells: it lies in the span and in one
    row, and its rectangle is the one of its row, column and cell count. *)
Definition segment_ok (sp sz : Z) (s : Segment) : Prop :=
  sp <= currentPosition s
  /\ currentPosition s + cellsInRow s <= sp + sz
  /\ 0 <= col s
  /\ 1 <= cellsInRow s <= cols - col s
  /\ currentPosition s = cols * row s + col s
  /\ fillRect s
     = (col s * cellWidth + (if isFirstCell s then cellMargin else 0),
        row s * cellHeight + rowMargin,
        cellsInRow s * cellWidth
        - (if isFirstCell s then cellMargin else 0)
        - (if isLastCell s then cellMargin else 0),
        cellHeight - 2 * rowMargin).

(** The pixels of the cells [cur, ..., cur + rem - 1] that belong to the bar
    of an item of start [sp] and size [sz]: inside the canvas width, 4 pixels
    off the top and the bottom of the row, and 4 pixels off the left of the
    item's first cell and off the right of its last cell. *)
Definition barPixelFrom (sp sz cur rem px py : Z) : Prop :=
  let c := clickedPosition px py in
  0 <= px < canvasWidth
  /\ cur <= c < cur + rem
  /\ rowMargin <= py mod cellHeight < cellHeight - rowMargin
  /\ (c = sp -> cellMargin <= px mod cellWidth)
  /\ (c = sp + sz - 1 -> px mod cellWidth < cellWidth - cellMargin).

(** The pixels of the bar of [item]: those of all the cells of its span. *)
Definition barPixel (item : Item) (px py : Z) : Prop :=
  barPixelFrom (startingPosition item) (size item)
    (startingPosition item) (size item) px py.

#[global] Instance barPixel_dec (item : Item) (px py : Z) :
  Decision (barPixel item px py).
Proof. unfold barPixel, barPixelFrom. apply _. Defined.

#[global] Instance inRect_dec (r : Z * Z * Z * Z) (px py : Z) :
  Decision (inRect r px py).
Proof. destruct r as [[[x y] w] h]. simpl. apply _. Defined.

(** The reading "every piece the renderer paints is a row-segment", as a
    statement about [drawItem]: the first and the last cell of a piece are
    on one row of the grid. *)
Definition splits_into_row_segments : Prop :=
  forall (item : Item) (s : Segment),
    s ∈ drawItem item ->
    currentPosition s / cols = (currentPosition s + cellsInRow s - 1) / cols.

(** * Properties *)

(** ** Sanity checks: the two end-to-end scenarios of the widget *)

(** Pressing on the right border of item 0 (cell 14) and moving to cell 16
    resizes item 0 to start 5, size 12. *)
Example scenario_resize_end :
  let st := handleMouseDown (Some origin) App_data (pointerAt 555 45) initialState in
  st = {| draggingItem := Some {| index := 0%nat; type := type_end |};
          dragOffset := None |}
  /\ applyEmitted (emitted (handleMouseMove (Some origin) App_data st
                              (pointerAt 40 75))) App_data
     = [ {| startingPosition := 5; size := 12 |};
         {| startingPosition := 20; size := 15 |} ].
Proof. split; reflexivity. Qed.

(** Pressing inside item 1 at cell 22 and moving to cell 30 moves item 1 to
    start 28, size 15. *)
Example scenario_move :
  let st := handleMouseDown (Some origin) App_data (pointerAt 520 75) initialState in
  st = {| draggingItem := Some {| index := 1%nat; type := type_move |};
          dragOffset := Some 2 |}
  /\ applyEmitted (emitted (handleMouseMove (Some origin) App_data st
                              (pointerAt 520 105))) App_data
     = [ {| startingPosition := 5; size := 10 |};
         {| startingPosition := 28; size := 15 |} ].
Proof. split; reflexivity. Qed.

(** Releasing the pointer always returns to the idle state. *)
Lemma handleMouseUp_idle (st : State) : handleMouseUp st = initialState.
Proof. reflexivity. Qed.

(** ** Coordinate mapper *)

Section Mapper.

(** Inside the region of column [c], row [r] the two floors are [c], [r]. *)
Lemma inCell_floors (c r x y : Z) :
  inCell c r x y -> x / cellWidth = c /\ y / cellHeight = r.
Proof.
  unfold inCell, cellWidth, cellHeight. intros [Hx Hy]. split.
  - symmetry. apply (Z.div_unique_pos x 80 c (x - 80 * c)); lia.
  - symmetry. apply (Z.div_unique_pos y 30 r (y - 30 * r)); lia.
Qed.

(** C6.  The coordinate mapper is a function of the pixel alone: at every
    pixel [(x, y)], in both handlers, it is
    [floor (y / 30) * 8 + floor (x / 80)]; on the 80 x 30 region of column
    [c] and row [r] it is constantly [r * 8 + c], so two pixels of one
    region get the same cell index. *)
Theorem coordinate_mapper_piecewise_constant (x y : Z) :
  clickedPosition x y = y / 30 * 8 + x / 80
  /\ hoveredPosition x y = y / 30 * 8 + x / 80
  /\ (forall c r : Z,
        inCell c r x y ->
        clickedPosition x y = r * 8 + c
        /\ hoveredPosition x y = r * 8 + c
        /\ forall x' y' : Z,
             inCell c r x' y' ->
             clickedPosition x' y' = clickedPosition x y
             /\ hoveredPosition x' y' = hoveredPosition x y).
Proof.
  split; [reflexivity |]. split; [reflexivity |].
  intros c r Hin. destruct (inCell_floors _ _ _ _ Hin) as [Hc Hr].
  unfold clickedPosition, hoveredPosition, cols.
  rewrite Hc, Hr. split; [reflexivity |]. split; [reflexivity |].
  intros x' y' Hin'. destruct (inCell_floors _ _ _ _ Hin') as [Hc' Hr'].
  rewrite Hc', Hr'. split; reflexivity.
Qed.

(** The pixels (400, 30) and (479, 59) are two corners of the region of
    column 5, row 1: both are cell 13. *)
Lemma coordinate_mapper_piecewise_constant_witness :
  clickedPosition 400 30 = 13
  /\ clickedPosition 479 59 = clickedPosition 400 30.
Proof.
  destruct (coordinate_mapper_piecewise_constant 400 30) as (_ & _ & Hcell).
  destruct (Hcell 5 1) as (Hidx & _ & Hsame).
  { unfold inCell, cellWidth, cellHeight. lia. }
  split.
  - exact Hidx.
  - apply (Hsame 479 59). unfold inCell, cellWidth, cellHeight. lia.
Defined.

End Mapper.

(** ** Pointer-down: hit classification *)

Section PointerDown.

Variables (clicked x : Z).

(** The first callback, read through [borderMatch]. *)
Lemma borderStep_borderMatch (item : Item) (i : nat) (acc : State * bool) :
  borderStep clicked x item i acc =
  match borderMatch clicked x item with
  | Some ty =>
      (setDraggingItem (Some {| index := i; type := ty |}) (fst acc), true)
  | None => acc
  end.
Proof.
  unfold borderStep, borderMatch.
  destruct ((clicked =? startingPosition item) && (Z.rem x cellWidth <=? 10));
    [reflexivity |].
  destruct ((clicked =? startingPosition item + size item - 1)
            && (cellWidth - Z.rem x cellWidth <=? 10)); reflexivity.
Qed.

(** The second callback, read through [insideSpan]. *)
Lemma moveStep_insideSpan (item : Item) (i : nat) (st : State) :
  moveStep clicked item i st =
  if insideSpan clicked item then
    {| draggingItem := Some {| index := i; type := type_move |};
       dragOffset := Some (clicked - startingPosition item) |}
  else st.
Proof. unfold moveStep, insideSpan. destruct (_ && _); reflexivity. Qed.

(** A border loop over items that all fail the border test changes
    nothing. *)
Lemma border_loop_no_match (data : list Item) (k : nat) (acc : State * bool) :
  (forall (j : nat) (it : Item),
      data !! j = Some it -> borderMatch clicked x it = None) ->
  forEach_from (borderStep clicked x) k data acc = acc.
Proof.
  revert k acc. induction data as [| it0 rest IH]; intros k acc Hnone.
  - reflexivity.
  - simpl. rewrite borderStep_borderMatch, (Hnone 0%nat it0 eq_refl).
    apply IH. intros j it Hj. exact (Hnone (S j) it Hj).
Qed.

(** The border loop ends on what its last matching item wrote. *)
Lemma border_loop_last_match (data : list Item) (k i : nat) (it : Item)
    (ty : DragType) (acc : State * bool) :
  data !! i = Some it ->
  borderMatch clicked x it = Some ty ->
  (forall (j : nat) (it' : Item),
      (i < j)%nat -> data !! j = Some it' ->
      borderMatch clicked x it' = None) ->
  forEach_from (borderStep clicked x) k data acc =
  ({| draggingItem := Some {| index := (k + i)%nat; type := ty |};
      dragOffset := dragOffset (fst acc) |}, true).
Proof.
  revert k i acc.
  induction data as [| it0 rest IH]; intros k i acc Hi Hty Hlater.
  - discriminate Hi.
  - simpl. rewrite borderStep_borderMatch. destruct i as [| i'].
    + injection Hi as ->. rewrite Hty.
      rewrite border_loop_no_match.
      * rewrite Nat.add_0_r. reflexivity.
      * intros j it' Hj. apply (Hlater (S j) it'); [lia | exact Hj].
    + rewrite (IH (S k) i' _ Hi Hty).
      * replace (S k + i')%nat with (k + S i')%nat by lia.
        destruct (borderMatch clicked x it0); reflexivity.
      * intros j it' Hlt Hj. apply (Hlater (S j) it'); [lia | exact Hj].
Qed.

(** A move loop over items that all fail the span test changes nothing. *)
Lemma move_loop_no_match (data : list Item) (k : nat) (st : State) :
  (forall (j : nat) (it : Item),
      data !! j = Some it -> insideSpan clicked it = false) ->
  forEach_from (moveStep clicked) k data st = st.
Proof.
  revert k st. induction data as [| it0 rest IH]; intros k st Hnone.
  - reflexivity.
  - simpl. rewrite moveStep_insideSpan, (Hnone 0%nat it0 eq_refl).
    apply IH. intros j it Hj. exact (Hnone (S j) it Hj).
Qed.

(** The move loop ends on what its last matching item wrote. *)
Lemma move_loop_last_match (data : list Item) (k i : nat) (it : Item)
    (st : State) :
  data !! i = Some it ->
  insideSpan clicked it = true ->
  (forall (j : nat) (it' : Item),
      (i < j)%nat -> data !! j = Some it' ->
      insideSpan clicked it' = false) ->
  forEach_from (moveStep clicked) k data st =
  {| draggingItem := Some {| index := (k + i)%nat; type := type_move |};
     dragOffset := Some (clicked - startingPosition it) |}.
Proof.
  revert k i st.
  induction data as [| it0 rest IH]; intros k i st Hi Hin Hlater.
  - discriminate Hi.
  - simpl. rewrite moveStep_insideSpan. destruct i as [| i'].
    + injection Hi as ->. rewrite Hin.
      rewrite move_loop_no_match.
      * rewrite Nat.add_0_r. reflexivity.
      * intros j it' Hj. apply (Hlater (S j) it'); [lia | exact Hj].
    + rewrite (IH (S k) i' _ Hi Hin).
      * replace (S k + i')%nat with (k + S i')%nat by lia. reflexivity.
      * intros j it' Hlt Hj. apply (Hlater (S j) it'); [lia | exact Hj].
Qed.

End PointerDown.

Section HitClassification.

Variables (rect : DOMRect) (data : list Item) (e : MouseEvent) (st : State).

Let x : Z := clientX e - left rect.
Let clicked : Z := clickedPosition x (clientY e - top rect).

(** C1 (as the code has it).  When the border test succeeds for one or
    more items, the gesture binds to the LAST of them in list order, with
    the resize type of that item's own test; the move loop is not run:
    the type is never [move] and [dragOffset] keeps its previous value,
    whatever spans the clicked cell lies in. *)
Theorem border_hit_last_match_wins (i : nat) (it : Item) (ty : DragType) :
  data !! i = Some it ->
  borderMatch clicked x it = Some ty ->
  (forall (j : nat) (it' : Item),
      (i < j)%nat -> data !! j = Some it' ->
      borderMatch clicked x it' = None) ->
  handleMouseDown (Some rect) data e st
  = {| draggingItem := Some {| index := i; type := ty |};
       dragOffset := dragOffset st |}
  /\ handleMouseDown (Some rect) data e st
     = fst (forEach (borderStep clicked x) data (st, false))
  /\ ty <> type_move.
Proof.
  intros Hi Hty Hlater.
  assert (Hloop : forEach (borderStep clicked x) data (st, false)
                  = ({| draggingItem := Some {| index := i; type := ty |};
                        dragOffset := dragOffset st |}, true)).
  { unfold forEach.
    rewrite (border_loop_last_match clicked x data 0 i it ty _ Hi Hty Hlater).
    reflexivity. }
  assert (Hrun : handleMouseDown (Some rect) data e st
                 = fst (forEach (borderStep clicked x) data (st, false))).
  { unfold handleMouseDown. fold x. fold clicked. rewrite Hloop. reflexivity. }
  split; [rewrite Hrun, Hloop; reflexivity |]. split; [exact Hrun |].
  unfold borderMatch in Hty.
  destruct (_ && _) in Hty; [congruence |].
  destruct (_ && _) in Hty; congruence.
Qed.

(** C8.  When no item passes the border test and the clicked cell lies in
    the span of one or more items, the gesture binds to the LAST such item
    in list order, as a [move] whose offset is the clicked cell minus that
    item's start. *)
Theorem move_hit_last_match_wins (i : nat) (it : Item) :
  (forall (j : nat) (it' : Item),
      data !! j = Some it' -> borderMatch clicked x it' = None) ->
  data !! i = Some it ->
  insideSpan clicked it = true ->
  (forall (j : nat) (it' : Item),
      (i < j)%nat -> data !! j = Some it' ->
      insideSpan clicked it' = false) ->
  handleMouseDown (Some rect) data e st
  = {| draggingItem := Some {| index := i; type := type_move |};
       dragOffset := Some (clicked - startingPosition it) |}.
Proof.
  intros Hnoborder Hi Hin Hlater.
  unfold handleMouseDown. fold x. fold clicked. unfold forEach.
  rewrite (border_loop_no_match clicked x data 0 _ Hnoborder). simpl.
  exact (move_loop_last_match clicked data 0 i it st Hi Hin Hlater).
Qed.

End HitClassification.

(** [overlapping_data] arises from [App]'s initial data by one move gesture. *)
Example overlapping_data_reachable :
  let st := handleMouseDown (Some origin) App_data (pointerAt 520 75) initialState in
  applyEmitted (emitted (handleMouseMove (Some origin) App_data st
                           (pointerAt 600 15))) App_data
  = overlapping_data.
Proof. reflexivity. Qed.

(** A press on the left edge of cell 5 passes the border test of both items
    of [overlapping_data]; the gesture binds to item 1, the later one. *)
Lemma border_hit_last_match_wins_witness :
  handleMouseDown (Some origin) overlapping_data (pointerAt 405 15) initialState
  = {| draggingItem := Some {| index := 1%nat; type := type_start |};
       dragOffset := None |}.
Proof.
  apply (border_hit_last_match_wins origin overlapping_data (pointerAt 405 15)
           initialState 1 {| startingPosition := 5; size := 15 |} type_start).
  - reflexivity.
  - reflexivity.
  - intros j it' Hlt Hj. destruct j as [| [| j]]; [lia | lia | discriminate Hj].
Defined.

(** C1 (as worded) fails: on [overlapping_data] item 0 is the earliest item
    whose border matches, and the gesture binds to item 1. *)
Lemma first_border_match_wins_fails : ~ first_border_match_wins.
Proof.
  intros Hfirst.
  specialize (Hfirst origin overlapping_data (pointerAt 405 15) initialState
                0%nat {| startingPosition := 5; size := 10 |} type_start).
  simpl in Hfirst.
  assert (Hbound : draggingItem
                     (handleMouseDown (Some origin) overlapping_data
                        (pointerAt 405 15) initialState)
                   = Some {| index := 0%nat; type := type_start |}).
  { apply Hfirst; [reflexivity | reflexivity |].
    intros j it' Hlt. lia. }
  vm_compute in Hbound. discriminate Hbound.
Qed.

(** On the same data a press in the middle of cell 7 passes no border test
    and lies in both spans; the gesture is a move of item 1, offset 2. *)
Lemma move_hit_last_match_wins_witness :
  handleMouseDown (Some origin) overlapping_data (pointerAt 600 15) initialState
  = {| draggingItem := Some {| index := 1%nat; type := type_move |};
       dragOffset := Some 2 |}.
Proof.
  apply (move_hit_last_match_wins origin overlapping_data (pointerAt 600 15)
           initialState 1 {| startingPosition := 5; size := 15 |}).
  - intros j it' Hj.
    destruct j as [| [| j]]; [| | discriminate Hj];
      injection Hj as <-; reflexivity.
  - reflexivity.
  - reflexivity.
  - intros j it' Hlt Hj. destruct j as [| [| j]]; [lia | lia | discriminate Hj].
Defined.

(** ** Pointer-move: gesture update *)

Section GestureUpdate.

Variables (rect : DOMRect) (data : list Item) (e : MouseEvent).

Let hovered : Z :=
  hoveredPosition (clientX e - left rect) (clientY e - top rect).

(** With a canvas and an active gesture the handler emits what
    [gestureUpdate] computes at the hovered cell. *)
Lemma handleMouseMove_emitted (st : State) (d : Dragging) :
  draggingItem st = Some d ->
  emitted (handleMouseMove (Some rect) data st e)
  = gestureUpdate data d (dragOffset st) hovered.
Proof. intros Hd. unfold handleMouseMove. simpl. rewrite Hd. reflexivity. Qed.

(** Without an active gesture nothing is emitted. *)
Lemma handleMouseMove_idle (st : State) :
  draggingItem st = None ->
  emitted (handleMouseMove (Some rect) data st e) = NoCall.
Proof. intros Hd. unfold handleMouseMove. simpl. rewrite Hd. reflexivity. Qed.

(** C2.  During a [move] of item [i] with captured offset [o]: if
    [hovered - o] differs from the item's current start, [onUpdateItem] is
    called for [i] with that start and the item's current size; if it is
    equal, nothing is emitted. *)
Theorem move_gesture_update (st : State) (i : nat) (o : Z) (it : Item) :
  draggingItem st = Some {| index := i; type := type_move |} ->
  dragOffset st = Some o ->
  data !! i = Some it ->
  (hovered - o <> startingPosition it ->
     emitted (handleMouseMove (Some rect) data st e)
     = onUpdateItem i {| startingPosition := hovered - o; size := size it |})
  /\ (hovered - o = startingPosition it ->
        emitted (handleMouseMove (Some rect) data st e) = NoCall)
  /\ (forall (j : nat) (u : Item),
        emitted (handleMouseMove (Some rect) data st e) = onUpdateItem j u ->
        j = i
        /\ startingPosition u = hovered - o
        /\ size u = size it
        /\ startingPosition u <> startingPosition it).
Proof.
  intros Hd Ho Hi.
  rewrite (handleMouseMove_emitted st _ Hd), Ho.
  unfold gestureUpdate. simpl. rewrite Hi. simpl.
  destruct (Z.eqb_spec (hovered - o) (startingPosition it)) as [Heq | Hne];
    simpl.
  - split; [intros Hne; contradiction |]. split; [reflexivity |].
    intros j u Hcall. discriminate Hcall.
  - split; [reflexivity |]. split; [intros Heq; contradiction |].
    intros j u Hcall. injection Hcall as <- <-. simpl. auto.
Qed.

(** C3.  During a [start]-resize of item [i]: nothing is emitted when
    [hovered >= start + size - 1]; otherwise [onUpdateItem] is called for
    [i] with start [hovered] and size [size + (start - hovered)]; an emitted
    size is never below 1. *)
Theorem start_resize_update (st : State) (i : nat) (it : Item) :
  draggingItem st = Some {| index := i; type := type_start |} ->
  data !! i = Some it ->
  (hovered >= startingPosition it + size it - 1 ->
     emitted (handleMouseMove (Some rect) data st e) = NoCall)
  /\ (hovered < startingPosition it + size it - 1 ->
        emitted (handleMouseMove (Some rect) data st e)
        = onUpdateItem i
            {| startingPosition := hovered;
               size := size it + (startingPosition it - hovered) |})
  /\ (forall (j : nat) (u : Item),
        emitted (handleMouseMove (Some rect) data st e) = onUpdateItem j u ->
        1 <= size u).
Proof.
  intros Hd Hi.
  rewrite (handleMouseMove_emitted st _ Hd).
  unfold gestureUpdate. simpl. rewrite Hi.
  destruct (Z.ltb_spec hovered (startingPosition it + size it - 1))
    as [Hlt | Hge]; simpl.
  - split; [intros Hge; lia |]. split; [reflexivity |].
    intros j u Hcall. injection Hcall as <- <-. simpl. lia.
  - split; [reflexivity |]. split; [intros Hlt; lia |].
    intros j u Hcall. discriminate Hcall.
Qed.

(** C4.  During an [end]-resize of item [i]: nothing is emitted when
    [hovered <= start]; otherwise [onUpdateItem] is called for [i] with the
    start unchanged and size [hovered - start + 1]; an emitted size is never
    below 1. *)
Theorem end_resize_update (st : State) (i : nat) (it : Item) :
  draggingItem st = Some {| index := i; type := type_end |} ->
  data !! i = Some it ->
  (hovered <= startingPosition it ->
     emitted (handleMouseMove (Some rect) data st e) = NoCall)
  /\ (hovered > startingPosition it ->
        emitted (handleMouseMove (Some rect) data st e)
        = onUpdateItem i
            {| startingPosition := startingPosition it;
               size := hovered - startingPosition it + 1 |})
  /\ (forall (j : nat) (u : Item),
        emitted (handleMouseMove (Some rect) data st e) = onUpdateItem j u ->
        1 <= size u).
Proof.
  intros Hd Hi.
  rewrite (handleMouseMove_emitted st _ Hd).
  unfold gestureUpdate. simpl. rewrite Hi.
  rewrite Z.gtb_ltb.
  destruct (Z.ltb_spec (startingPosition it) hovered) as [Hlt | Hge]; simpl.
  - split; [intros Hle; lia |]. split; [reflexivity |].
    intros j u Hcall. injection Hcall as <- <-. simpl. lia.
  - split; [reflexivity |]. split; [intros Hgt; lia |].
    intros j u Hcall. discriminate Hcall.
Qed.

(** C5.  Every update a [start]-resize of item [i] emits keeps the end
    boundary: the new start plus the new size is the old start plus the old
    size. *)
Theorem start_resize_end_fixed (st : State) (i : nat) (it : Item)
    (j : nat) (u : Item) :
  draggingItem st = Some {| index := i; type := type_start |} ->
  data !! i = Some it ->
  emitted (handleMouseMove (Some rect) data st e) = onUpdateItem j u ->
  j = i
  /\ startingPosition u + size u = startingPosition it + size it.
Proof.
  intros Hd Hi.
  rewrite (handleMouseMove_emitted st _ Hd).
  unfold gestureUpdate. simpl. rewrite Hi.
  destruct (hovered <? startingPosition it + size it - 1); simpl;
    intros Hcall; [| discriminate Hcall].
  injection Hcall as <- <-. simpl. split; [reflexivity | lia].
Qed.

(** C10.  Every update a resize gesture ([start] or [end]) emits has size
    2 or more: the guards are strict, so size 1 is never emitted. *)
Theorem resize_emits_size_ge_2 (st : State) (d : Dragging)
    (j : nat) (u : Item) :
  draggingItem st = Some d ->
  type d = type_start \/ type d = type_end ->
  emitted (handleMouseMove (Some rect) data st e) = onUpdateItem j u ->
  2 <= size u.
Proof.
  intros Hd Hty.
  rewrite (handleMouseMove_emitted st _ Hd).
  unfold gestureUpdate.
  destruct (data !! index d) as [it |]; [| discriminate].
  destruct Hty as [-> | ->]; simpl.
  - destruct (Z.ltb_spec hovered (startingPosition it + size it - 1));
      intros Hcall; [| discriminate Hcall].
    injection Hcall as <- <-. simpl. lia.
  - rewrite Z.gtb_ltb.
    destruct (Z.ltb_spec (startingPosition it) hovered);
      intros Hcall; [| discriminate Hcall].
    injection Hcall as <- <-. simpl. lia.
Qed.

End GestureUpdate.

(** *** The gestures on [App]'s initial data *)

(** Item 1 (start 20, size 15) grabbed at cell 22, pointer at cell 30: the
    update moves it to start 28 and keeps size 15. *)
Lemma move_gesture_update_witness :
  emitted (handleMouseMove (Some origin) App_data
             {| draggingItem := Some {| index := 1%nat; type := type_move |};
                dragOffset := Some 2 |}
             (pointerAt 520 105))
  = onUpdateItem 1 {| startingPosition := 28; size := 15 |}.
Proof.
  apply (proj1 (move_gesture_update origin App_data (pointerAt 520 105)
                  {| draggingItem := Some {| index := 1%nat; type := type_move |};
                     dragOffset := Some 2 |}
                  1 2 {| startingPosition := 20; size := 15 |}
                  eq_refl eq_refl eq_refl)).
  vm_compute. discriminate.
Defined.

(** Left border of item 0 (start 5, size 10) dragged to cell 3: start 3,
    size 12. *)
Lemma start_resize_update_witness :
  emitted (handleMouseMove (Some origin) App_data
             {| draggingItem := Some {| index := 0%nat; type := type_start |};
                dragOffset := None |}
             (pointerAt 280 15))
  = onUpdateItem 0 {| startingPosition := 3; size := 12 |}.
Proof.
  apply (proj1 (proj2 (start_resize_update origin App_data (pointerAt 280 15)
                         {| draggingItem :=
                              Some {| index := 0%nat; type := type_start |};
                            dragOffset := None |}
                         0 {| startingPosition := 5; size := 10 |}
                         eq_refl eq_refl))).
  vm_compute. reflexivity.
Defined.

(** Right border of item 0 dragged from cell 14 to cell 16: start 5,
    size 12. *)
Lemma end_resize_update_witness :
  emitted (handleMouseMove (Some origin) App_data
             {| draggingItem := Some {| index := 0%nat; type := type_end |};
                dragOffset := None |}
             (pointerAt 40 75))
  = onUpdateItem 0 {| startingPosition := 5; size := 12 |}.
Proof.
  apply (proj1 (proj2 (end_resize_update origin App_data (pointerAt 40 75)
                         {| draggingItem :=
                              Some {| index := 0%nat; type := type_end |};
                            dragOffset := None |}
                         0 {| startingPosition := 5; size := 10 |}
                         eq_refl eq_refl))).
  vm_compute. reflexivity.
Defined.

(** The update of [start_resize_update_witness] still ends at cell 14. *)
Lemma start_resize_end_fixed_witness :
  0%nat = 0%nat /\ 3 + 12 = 5 + 10.
Proof.
  exact (start_resize_end_fixed origin App_data (pointerAt 280 15)
           {| draggingItem := Some {| index := 0%nat; type := type_start |};
              dragOffset := None |}
           0 {| startingPosition := 5; size := 10 |}
           0 {| startingPosition := 3; size := 12 |}
           eq_refl eq_refl eq_refl).
Defined.

(** The tightest [end]-resize, one cell past the start, emits size 2. *)
Lemma resize_emits_size_ge_2_witness :
  emitted (handleMouseMove (Some origin) App_data
             {| draggingItem := Some {| index := 0%nat; type := type_end |};
                dragOffset := None |}
             (pointerAt 520 15))
  = onUpdateItem 0 {| startingPosition := 5; size := 2 |}
  /\ 2 <= 2.
Proof.
  split; [reflexivity |].
  exact (resize_emits_size_ge_2 origin App_data (pointerAt 520 15)
           {| draggingItem := Some {| index := 0%nat; type := type_end |};
              dragOffset := None |}
           {| index := 0%nat; type := type_end |}
           0 {| startingPosition := 5; size := 2 |}
           eq_refl (or_intror eq_refl) eq_refl).
Defined.

(** C9.  Emitted updates are not clamped to the grid.  On [App]'s data and
    48-cell grid, with both pointer events inside the canvas: grabbing item 0
    at cell 14 (offset 9) and moving to cell 0 emits start -9; grabbing
    item 1 at cell 20 and moving to cell 47 emits a span that ends past the
    last cell of the grid. *)
Theorem move_updates_not_clamped :
  let insideCanvas (p : MouseEvent) :=
    0 <= clientX p < canvasWidth /\ 0 <= clientY p < canvasHeight App_size in
  (exists (down move : MouseEvent) (i : nat) (u : Item),
      insideCanvas down /\ insideCanvas move
      /\ (let st := handleMouseDown (Some origin) App_data down initialState in
          draggingItem st = Some {| index := i; type := type_move |}
          /\ emitted (handleMouseMove (Some origin) App_data st move)
             = onUpdateItem i u)
      /\ startingPosition u < 0)
  /\ (exists (down move : MouseEvent) (i : nat) (u : Item),
        insideCanvas down /\ insideCanvas move
        /\ (let st := handleMouseDown (Some origin) App_data down initialState in
            draggingItem st = Some {| index := i; type := type_move |}
            /\ emitted (handleMouseMove (Some origin) App_data st move)
               = onUpdateItem i u)
        /\ startingPosition u + size u > App_size).
Proof.
  split.
  - exists (pointerAt 520 45), (pointerAt 40 15), 0%nat,
      {| startingPosition := -9; size := 10 |}.
    vm_compute. intuition congruence.
  - exists (pointerAt 360 75), (pointerAt 600 165), 1%nat,
      {| startingPosition := 47; size := 15 |}.
    vm_compute. intuition congruence.
Qed.

(** ** Renderer: row-segments of an item *)

Section Segments.

Variables (startingPosition0 size0 : Z).

(** The loop stops as soon as nothing remains. *)
Lemma drawItemLoop_done (remainingSize currentPosition : Z) :
  remainingSize <= 0 ->
  drawItemLoop startingPosition0 size0 remainingSize currentPosition = [].
Proof.
  intros Hrem.
  rewrite (drawItemLoop_equation_1 _ _ remainingSize currentPosition).
  destruct (Z_gt_dec remainingSize 0) as [Hgt | Hngt]; [lia | reflexivity].
Qed.

(** One turn of the loop: paint [segmentAt], then go on after its cells. *)
Lemma drawItemLoop_walk (remainingSize currentPosition : Z) :
  0 < remainingSize ->
  drawItemLoop startingPosition0 size0 remainingSize currentPosition
  = segmentAt startingPosition0 size0 remainingSize currentPosition
    :: drawItemLoop startingPosition0 size0
         (remainingSize - cellsInRowAt remainingSize currentPosition)
         (currentPosition + cellsInRowAt remainingSize currentPosition).
Proof.
  intros Hrem.
  rewrite (drawItemLoop_equation_1 _ _ remainingSize currentPosition).
  destruct (Z_gt_dec remainingSize 0) as [Hgt | Hngt]; [reflexivity | lia].
Qed.

(** A segment taken from a positive remainder has between 1 and
    [remainingSize] cells. *)
Lemma cellsInRowAt_bounds (remainingSize currentPosition : Z) :
  0 < remainingSize ->
  1 <= cellsInRowAt remainingSize currentPosition <= remainingSize.
Proof.
  intros Hrem. unfold cellsInRowAt, cols.
  pose proof (Z.rem_bound_abs currentPosition 8). lia.
Qed.

(** From a cell of the grid proper ([0 <= currentPosition]) every painted
    segment stays in one row: its column is a column of the grid, and its
    first and last cell have the row the loop computed. *)
Lemma drawItemLoop_one_row (remainingSize cur : Z) :
  0 <= cur ->
  Forall (fun s : Segment =>
            0 <= col s < cols
            /\ 1 <= cellsInRow s <= cols - col s
            /\ currentPosition s / cols = row s
            /\ (currentPosition s + cellsInRow s - 1) / cols = row s)
         (drawItemLoop startingPosition0 size0 remainingSize cur).
Proof.
  assert (Hall : forall (n : nat) (rem c : Z),
             (Z.to_nat rem <= n)%nat -> 0 <= c ->
             Forall (fun s : Segment =>
                       0 <= col s < cols
                       /\ 1 <= cellsInRow s <= cols - col s
                       /\ currentPosition s / cols = row s
                       /\ (currentPosition s + cellsInRow s - 1) / cols
                          = row s)
                    (drawItemLoop startingPosition0 size0 rem c)).
  { induction n as [| n IH]; intros rem c Hn Hc.
    - rewrite drawItemLoop_done by lia. constructor.
    - destruct (Z_lt_le_dec 0 rem) as [Hpos | Hle].
      + rewrite drawItemLoop_walk by exact Hpos.
        pose proof (cellsInRowAt_bounds rem c Hpos) as Hb.
        constructor; [| apply IH; lia].
        unfold segmentAt. simpl. fold (cellsInRowAt rem c).
        assert (Hcol : 0 <= Z.rem c cols < cols)
          by (apply Z.rem_bound_pos; unfold cols; lia).
        assert (Hfit : cellsInRowAt rem c <= cols - Z.rem c cols)
          by (unfold cellsInRowAt; lia).
        assert (Hdecomp : c = cols * (c / cols) + Z.rem c cols).
        { rewrite Z.rem_mod_nonneg by (unfold cols; lia).
          apply Z.div_mod. unfold cols; lia. }
        repeat split; try lia.
        symmetry.
        apply (Z.div_unique_pos _ cols (c / cols)
                 (Z.rem c cols + cellsInRowAt rem c - 1));
          unfold cols in *; lia.
      + rewrite drawItemLoop_done by exact Hle. constructor. }
  intros Hcur.
  exact (Hall (Z.to_nat remainingSize) remainingSize cur
           (Nat.le_refl _) Hcur).
Qed.

End Segments.

(** All overlays of [App]'s initial data: two segments for item 0, three for
    item 1 (cells 20-23, 24-31 and 32-34). *)
Example drawItems_App_data :
  (fun s : Segment => (row s, col s, cellsInRow s, fillRect s))
    <$> drawItems App_data
  = [ (0, 5, 3, (404, 4, 236, 22));
      (1, 0, 7, (0, 34, 556, 22));
      (2, 4, 4, (324, 64, 316, 22));
      (3, 0, 8, (0, 94, 640, 22));
      (4, 0, 3, (0, 124, 236, 22)) ].
Proof. vm_compute. reflexivity. Qed.

(** * Further properties of the handlers, the merge and the renderer *)

(** ** Pointer-down: the three outcomes of a press *)

(** In a list, either no element passes a test or there is a last one that
    does. *)
Lemma last_match_or_none {A : Type} (P : A -> bool) (l : list A) :
  (forall (j : nat) (a : A), l !! j = Some a -> P a = false)
  \/ (exists (i : nat) (a : A),
        l !! i = Some a /\ P a = true
        /\ forall (j : nat) (a' : A),
             (i < j)%nat -> l !! j = Some a' -> P a' = false).
Proof.
  induction l as [| a0 rest IH].
  - left. intros j a Hj. discriminate Hj.
  - destruct IH as [Hnone | (i & a & Hi & Ha & Hlater)].
    + destruct (P a0) eqn:Ha0.
      * right. exists 0%nat, a0. split; [reflexivity |]. split; [exact Ha0 |].
        intros j a' Hlt Hj. destruct j as [| j]; [lia |].
        exact (Hnone j a' Hj).
      * left. intros j a Hj. destruct j as [| j].
        -- injection Hj as <-. exact Ha0.
        -- exact (Hnone j a Hj).
    + right. exists (S i), a. split; [exact Hi |]. split; [exact Ha |].
      intros j a' Hlt Hj. destruct j as [| j]; [lia |].
      apply (Hlater j a'); [lia | exact Hj].
Qed.

(** [borderHit] is the border test without its result. *)
Lemma borderHit_false (clicked x : Z) (item : Item) :
  borderHit clicked x item = false <-> borderMatch clicked x item = None.
Proof.
  unfold borderHit. destruct (borderMatch clicked x item); split; congruence.
Qed.

Lemma borderHit_true (clicked x : Z) (item : Item) :
  borderHit clicked x item = true
  <-> exists ty : DragType, borderMatch clicked x item = Some ty.
Proof.
  unfold borderHit. destruct (borderMatch clicked x item) as [ty |]; split.
  - intros _. exists ty. reflexivity.
  - reflexivity.
  - discriminate.
  - intros [ty Hty]. discriminate Hty.
Qed.

(** The border test never answers [move]. *)
Lemma borderMatch_not_move (clicked x : Z) (item : Item) (ty : DragType) :
  borderMatch clicked x item = Some ty -> ty = type_start \/ ty = type_end.
Proof.
  unfold borderMatch.
  destruct (_ && _); [intros [= <-]; left; reflexivity |].
  destruct (_ && _); [intros [= <-]; right; reflexivity | discriminate].
Qed.

(** The outcome of a press, whatever the data: a resize of the last item
    whose border matches; else a move of the last item whose span holds the
    clicked cell; else no change of state. *)
Lemma handleMouseDown_cases (rect : DOMRect) (data : list Item)
    (e : MouseEvent) (st : State) :
  let x := clientX e - left rect in
  let clicked := clickedPosition x (clientY e - top rect) in
  (exists (i : nat) (it : Item) (ty : DragType),
      data !! i = Some it
      /\ borderMatch clicked x it = Some ty
      /\ handleMouseDown (Some rect) data e st
         = {| draggingItem := Some {| index := i; type := ty |};
              dragOffset := dragOffset st |})
  \/ ((forall (j : nat) (it : Item),
          data !! j = Some it -> borderMatch clicked x it = None)
      /\ exists (i : nat) (it : Item),
           data !! i = Some it
           /\ insideSpan clicked it = true
           /\ handleMouseDown (Some rect) data e st
              = {| draggingItem := Some {| index := i; type := type_move |};
                   dragOffset := Some (clicked - startingPosition it) |})
  \/ ((forall (j : nat) (it : Item),
          data !! j = Some it ->
          borderMatch clicked x it = None /\ insideSpan clicked it = false)
      /\ handleMouseDown (Some rect) data e st = st).
Proof.
  intros x clicked.
  destruct (last_match_or_none (borderHit clicked x) data)
    as [Hnob | (i & it & Hi & Hhit & Hlater)].
  - assert (Hnoborder : forall (j : nat) (it : Item),
               data !! j = Some it -> borderMatch clicked x it = None).
    { intros j it Hj. apply borderHit_false. exact (Hnob j it Hj). }
    right.
    destruct (last_match_or_none (insideSpan clicked) data)
      as [Hnoin | (i & it & Hi & Hin & Hlater)].
    + right. split; [intros j it Hj; split; eauto |].
      unfold handleMouseDown. fold x. fold clicked. unfold forEach.
      rewrite (border_loop_no_match clicked x data 0 _ Hnoborder). simpl.
      apply move_loop_no_match. exact Hnoin.
    + left. split; [exact Hnoborder |]. exists i, it.
      split; [exact Hi |]. split; [exact Hin |].
      unfold handleMouseDown. fold x. fold clicked. unfold forEach.
      rewrite (border_loop_no_match clicked x data 0 _ Hnoborder). simpl.
      exact (move_loop_last_match clicked data 0 i it st Hi Hin Hlater).
  - left. apply borderHit_true in Hhit as [ty Hty]. exists i, it, ty.
    split; [exact Hi |]. split; [exact Hty |].
    unfold handleMouseDown. fold x. fold clicked. unfold forEach.
    rewrite (border_loop_last_match clicked x data 0 i it ty (st, false) Hi Hty).
    + reflexivity.
    + intros j it' Hlt Hj. apply borderHit_false. exact (Hlater j it' Hlt Hj).
Qed.

(** [existsb] through list lookup. *)
Lemma existsb_lookup_true {A : Type} (P : A -> bool) (l : list A)
    (i : nat) (a : A) :
  l !! i = Some a -> P a = true -> existsb P l = true.
Proof.
  revert i. induction l as [| a0 rest IH]; intros i Hi Ha.
  - discriminate Hi.
  - simpl. destruct i as [| i].
    + injection Hi as ->. rewrite Ha. reflexivity.
    + rewrite (IH i Hi Ha). apply orb_true_r.
Qed.

Lemma existsb_lookup_false {A : Type} (P : A -> bool) (l : list A) :
  (forall (j : nat) (a : A), l !! j = Some a -> P a = false) ->
  existsb P l = false.
Proof.
  induction l as [| a0 rest IH]; intros Hnone.
  - reflexivity.
  - simpl. rewrite (Hnone 0%nat a0 eq_refl). simpl.
    apply IH. intros j a Hj. exact (Hnone (S j) a Hj).
Qed.

(** The hover loop computes two disjunctions over the items. *)
Lemma hover_loop (hovered x : Z) (data : list Item) (k : nat) (h : Hover) :
  forEach_from (hoverStep hovered x) k data h
  = {| isOnBorder := isOnBorder h || existsb (borderHit hovered x) data;
       isOnItem :=
         isOnItem h
         || existsb (fun it => negb (borderHit hovered x it)
                               && insideSpan hovered it) data |}.
Proof.
  revert k h. induction data as [| it rest IH]; intros k h.
  - simpl. rewrite !orb_false_r. destruct h; reflexivity.
  - simpl. rewrite IH. unfold hoverStep, borderHit, borderMatch, insideSpan.
    destruct ((hovered =? startingPosition it) && (Z.rem x cellWidth <=? 10));
      simpl.
    + rewrite orb_true_r. reflexivity.
    + destruct ((hovered =? startingPosition it + size it - 1)
                && (cellWidth - Z.rem x cellWidth <=? 10)); simpl.
      * rewrite orb_true_r. reflexivity.
      * destruct ((hovered >=? startingPosition it)
                  && (hovered <? startingPosition it + size it)); simpl.
        -- rewrite orb_true_r. reflexivity.
        -- reflexivity.
Qed.

(** The cursor a pointer-move sets, as a function of the items. *)
Lemma handleMouseMove_cursor (rect : DOMRect) (data : list Item)
    (st : State) (e : MouseEvent) :
  let x := clientX e - left rect in
  let hovered := hoveredPosition x (clientY e - top rect) in
  cursor (handleMouseMove (Some rect) data st e)
  = Some (if existsb (borderHit hovered x) data then "ew-resize"%string
          else if existsb (fun it => negb (borderHit hovered x it)
                                     && insideSpan hovered it) data
               then "move"%string
               else "default"%string).
Proof.
  intros x hovered. unfold handleMouseMove. simpl. fold x. fold hovered.
  unfold forEach. rewrite hover_loop. reflexivity.
Qed.

(** X3.  The cursor a pointer-move sets announces what a press at the same
    pixel would start from the idle state: ["ew-resize"] for a resize,
    ["move"] for a move, ["default"] when the press would start nothing;
    this in whatever state the gesture is. *)
Theorem cursor_announces_press (rect : DOMRect) (data : list Item)
    (st : State) (e : MouseEvent) :
  cursor (handleMouseMove (Some rect) data st e)
  = Some (match draggingItem
                  (handleMouseDown (Some rect) data e initialState) with
          | Some d =>
              if DragType_eqb (type d) type_move then "move"%string
              else "ew-resize"%string
          | None => "default"%string
          end).
Proof.
  rewrite handleMouseMove_cursor.
  change (hoveredPosition (clientX e - left rect) (clientY e - top rect))
    with (clickedPosition (clientX e - left rect) (clientY e - top rect)).
  destruct (handleMouseDown_cases rect data e initialState)
    as [(i & it & ty & Hi & Hty & ->)
       | [(Hnob & i & it & Hi & Hin & ->) | (Hnone & ->)]]; simpl.
  - rewrite (existsb_lookup_true _ data i it Hi)
      by (apply borderHit_true; eauto).
    destruct (borderMatch_not_move _ _ _ _ Hty) as [-> | ->]; reflexivity.
  - rewrite existsb_lookup_false
      by (intros j a Hj; apply borderHit_false; eauto).
    rewrite (existsb_lookup_true _ data i it Hi); [reflexivity |].
    rewrite Hin, (proj2 (borderHit_false _ _ _) (Hnob i it Hi)). reflexivity.
  - rewrite existsb_lookup_false
      by (intros j a Hj; apply borderHit_false; apply (Hnone j a Hj)).
    rewrite existsb_lookup_false; [reflexivity |].
    intros j a Hj. rewrite (proj2 (Hnone j a Hj)). apply andb_false_r.
Qed.

(** X2.  A press on a cell where no item passes the border test and no span
    holds the cell (any press on empty data, for one) leaves the state as it
    was: it neither starts a gesture nor clears one. *)
Theorem press_on_free_cell_keeps_state (rect : DOMRect) (data : list Item)
    (e : MouseEvent) (st : State) :
  let x := clientX e - left rect in
  let clicked := clickedPosition x (clientY e - top rect) in
  (forall (j : nat) (it : Item),
      data !! j = Some it ->
      borderMatch clicked x it = None /\ insideSpan clicked it = false) ->
  handleMouseDown (Some rect) data e st = st.
Proof.
  intros x clicked Hnone.
  unfold handleMouseDown. fold x. fold clicked. unfold forEach.
  rewrite border_loop_no_match
    by (intros j it Hj; apply (Hnone j it Hj)).
  simpl. apply move_loop_no_match.
  intros j it Hj. apply (Hnone j it Hj).
Qed.

(** Cell 0 of [App]'s grid is free. *)
Lemma press_on_free_cell_keeps_state_witness :
  handleMouseDown (Some origin) App_data (pointerAt 40 15) initialState
  = initialState.
Proof.
  apply (press_on_free_cell_keeps_state origin App_data (pointerAt 40 15)
           initialState).
  intros j it Hj.
  destruct j as [| [| j]]; [| | discriminate Hj];
    injection Hj as <-; split; reflexivity.
Defined.

(** X1.  A press that starts from the idle state and records a gesture
    records it on an item of the list: the index is in range; a [move] is of
    an item whose span holds the clicked cell, with offset clicked minus its
    start; a resize is of an item that passes the border test with that very
    type. *)
Theorem press_binds_to_listed_item (rect : DOMRect) (data : list Item)
    (e : MouseEvent) (st : State) (d : Dragging) :
  let x := clientX e - left rect in
  let clicked := clickedPosition x (clientY e - top rect) in
  draggingItem st = None ->
  draggingItem (handleMouseDown (Some rect) data e st) = Some d ->
  exists it : Item,
    data !! index d = Some it
    /\ (index d < length data)%nat
    /\ (type d = type_move ->
          insideSpan clicked it = true
          /\ dragOffset (handleMouseDown (Some rect) data e st)
             = Some (clicked - startingPosition it))
    /\ (type d <> type_move -> borderMatch clicked x it = Some (type d)).
Proof.
  intros x clicked Hidle Hd.
  destruct (handleMouseDown_cases rect data e st)
    as [(i & it & ty & Hi & Hty & Hrun)
       | [(Hnob & i & it & Hi & Hin & Hrun) | (Hnone & Hrun)]];
    rewrite Hrun in Hd |- *; simpl in Hd.
  - injection Hd as <-. exists it. simpl.
    split; [exact Hi |]. split; [exact (lookup_lt_Some _ _ _ Hi) |].
    split; [| intros _; exact Hty].
    intros ->. destruct (borderMatch_not_move _ _ _ _ Hty); discriminate.
  - injection Hd as <-. exists it. simpl.
    split; [exact Hi |]. split; [exact (lookup_lt_Some _ _ _ Hi) |].
    split; [intros _; split; [exact Hin | reflexivity] |].
    intros Hne. contradiction.
  - congruence.
Qed.

(** Item 1 of [App]'s data, pressed in its body at cell 22. *)
Lemma press_binds_to_listed_item_witness :
  exists it : Item,
    App_data !! 1%nat = Some it
    /\ insideSpan (clickedPosition 520 75) it = true.
Proof.
  destruct (press_binds_to_listed_item origin App_data (pointerAt 520 75)
              initialState {| index := 1%nat; type := type_move |}
              eq_refl eq_refl)
    as (it & Hit & _ & Hmove & _).
  exists it. split; [exact Hit |]. exact (proj1 (Hmove eq_refl)).
Defined.

(** The three ways in which [gestureUpdate] calls [onUpdateItem]. *)
Lemma gestureUpdate_inv (data : list Item) (d : Dragging) (o : option Z)
    (hovered : Z) (j : nat) (u : Item) :
  gestureUpdate data d o hovered = onUpdateItem j u ->
  j = index d
  /\ exists it : Item,
       data !! index d = Some it
       /\ ((type d = type_move
            /\ hovered - default 0 o <> startingPosition it
            /\ u = {| startingPosition := hovered - default 0 o;
                      size := size it |})
           \/ (type d = type_start
               /\ hovered < startingPosition it + size it - 1
               /\ u = {| startingPosition := hovered;
                         size := size it + (startingPosition it - hovered) |})
           \/ (type d = type_end
               /\ hovered > startingPosition it
               /\ u = {| startingPosition := startingPosition it;
                         size := hovered - startingPosition it + 1 |})).
Proof.
  unfold gestureUpdate.
  destruct (data !! index d) as [it |]; [| discriminate].
  destruct (type d); simpl.
  - destruct (Z.ltb_spec hovered (startingPosition it + size it - 1));
      [| discriminate].
    intros [= <- <-]. split; [reflexivity |]. exists it.
    split; [reflexivity |]. right. left. auto.
  - rewrite Z.gtb_ltb.
    destruct (Z.ltb_spec (startingPosition it) hovered); [| discriminate].
    intros [= <- <-]. split; [reflexivity |]. exists it.
    split; [reflexivity |]. right. right. split; [reflexivity |].
    split; [lia | reflexivity].
  - destruct (Z.eqb_spec (hovered - default 0 o) (startingPosition it));
      simpl; [discriminate |].
    intros [= <- <-]. split; [reflexivity |]. exists it.
    split; [reflexivity |]. left. auto.
Qed.

(** A pointer-move emits nothing, or there are a canvas and a gesture and it
    emits what [gestureUpdate] computes. *)
Lemma handleMouseMove_emitted_inv (canvas : option DOMRect)
    (data : list Item) (st : State) (e : MouseEvent) :
  emitted (handleMouseMove canvas data st e) = NoCall
  \/ exists (rect : DOMRect) (d : Dragging),
       canvas = Some rect /\ draggingItem st = Some d
       /\ emitted (handleMouseMove canvas data st e)
          = gestureUpdate data d (dragOffset st)
              (hoveredPosition (clientX e - left rect) (clientY e - top rect)).
Proof.
  destruct canvas as [rect |]; [| left; reflexivity].
  destruct (draggingItem st) as [d |] eqn:Hd.
  - right. exists rect, d. split; [reflexivity |]. split; [reflexivity |].
    apply handleMouseMove_emitted. exact Hd.
  - left. apply handleMouseMove_idle. exact Hd.
Qed.

(** X4.  After a press that started from the idle state, a pointer-move over
    the same data never stops on the [TypeError] of an absent
    [data[index]]. *)
Theorem no_TypeError_after_press (canvas canvas' : option DOMRect)
    (data : list Item) (e e' : MouseEvent) (st : State) :
  draggingItem st = None ->
  emitted (handleMouseMove canvas' data (handleMouseDown canvas data e st) e')
  <> TypeError.
Proof.
  intros Hidle.
  destruct (handleMouseMove_emitted_inv canvas' data
              (handleMouseDown canvas data e st) e')
    as [-> | (rect' & d & _ & Hd & ->)]; [discriminate |].
  destruct canvas as [rect |]; [| simpl in Hd; congruence].
  assert (Hlisted : exists it : Item, data !! index d = Some it).
  { destruct (handleMouseDown_cases rect data e st)
      as [(i & it & ty & Hi & _ & Hrun)
         | [(_ & i & it & Hi & _ & Hrun) | (_ & Hrun)]];
      rewrite Hrun in Hd; simpl in Hd.
    - injection Hd as <-. exists it. exact Hi.
    - injection Hd as <-. exists it. exact Hi.
    - congruence. }
  destruct Hlisted as [it Hi].
  unfold gestureUpdate. rewrite Hi.
  destruct (type d); simpl;
    repeat match goal with
           | |- context [if ?b then _ else _] => destruct b
           end; discriminate.
Qed.

(** A press in item 1, then a move to cell 0. *)
Lemma no_TypeError_after_press_witness :
  emitted (handleMouseMove (Some origin) App_data
             (handleMouseDown (Some origin) App_data (pointerAt 520 75)
                initialState)
             (pointerAt 40 15))
  <> TypeError.
Proof.
  exact (no_TypeError_after_press (Some origin) (Some origin) App_data
           (pointerAt 520 75) (pointerAt 40 15) initialState eq_refl).
Defined.

(** X5.  When the recorded index is past the end of the list the handler is
    given (the owner shortened it during the gesture), the pointer-move sets
    the cursor and then stops on the [TypeError], for every gesture type. *)
Theorem stale_index_TypeError (rect : DOMRect) (data : list Item)
    (st : State) (e : MouseEvent) (d : Dragging) :
  draggingItem st = Some d ->
  (length data <= index d)%nat ->
  emitted (handleMouseMove (Some rect) data st e) = TypeError
  /\ cursor (handleMouseMove (Some rect) data st e) <> None.
Proof.
  intros Hd Hlen. split; [| discriminate].
  rewrite (handleMouseMove_emitted rect data e st d Hd).
  unfold gestureUpdate. rewrite (lookup_ge_None_2 _ _ Hlen). reflexivity.
Qed.

(** A gesture on index 5 handed a list of two items. *)
Lemma stale_index_TypeError_witness :
  emitted (handleMouseMove (Some origin) App_data
             {| draggingItem := Some {| index := 5%nat; type := type_end |};
                dragOffset := None |}
             (pointerAt 40 15))
  = TypeError.
Proof.
  apply (stale_index_TypeError origin App_data
           {| draggingItem := Some {| index := 5%nat; type := type_end |};
              dragOffset := None |}
           (pointerAt 40 15) {| index := 5%nat; type := type_end |}).
  - reflexivity.
  - simpl. lia.
Defined.

(** ** The owner's merge *)

(** [App]'s merge is the list update at [index]. *)
Lemma handleUpdateItem_insert (index : nat) (updatedItem : Item)
    (prevData : list Item) :
  handleUpdateItem index updatedItem prevData
  = <[index := updatedItem]> prevData.
Proof.
  unfold handleUpdateItem. apply list_eq. intros i.
  rewrite list_lookup_imap.
  destruct (decide (index = i)) as [<- | Hne].
  - rewrite Nat.eqb_refl.
    destruct (prevData !! index) as [it |] eqn:Hit; simpl.
    + symmetry. apply list_lookup_insert_eq. exact (lookup_lt_Some _ _ _ Hit).
    + symmetry. apply lookup_ge_None. rewrite length_insert.
      apply lookup_ge_None. exact Hit.
  - rewrite list_lookup_insert_ne by exact Hne.
    destruct (Nat.eqb_spec i index) as [-> | _]; [contradiction |].
    destruct (prevData !! i); reflexivity.
Qed.

(** X6.  [App]'s merge keeps the length of the list; it puts the update at
    [index] when [index] is in range and leaves every other position, and the
    whole list when [index] is out of range, as it was. *)
Theorem handleUpdateItem_lookup (index : nat) (updatedItem : Item)
    (prevData : list Item) (i : nat) :
  length (handleUpdateItem index updatedItem prevData) = length prevData
  /\ handleUpdateItem index updatedItem prevData !! i
     = if decide (i = index /\ (index < length prevData)%nat)
       then Some updatedItem
       else prevData !! i.
Proof.
  rewrite handleUpdateItem_insert. split; [apply length_insert |].
  destruct (decide (i = index /\ (index < length prevData)%nat))
    as [[-> Hlt] | Hno].
  - apply list_lookup_insert_eq. exact Hlt.
  - destruct (decide (index = i)) as [<- | Hne].
    + rewrite list_insert_ge by lia. reflexivity.
    + apply list_lookup_insert_ne. exact Hne.
Qed.

(** ** One pointer-move with its merge *)

(** Either the data is left as it is, or the item of the gesture is replaced
    by one of the three updates. *)
Lemma pointerMove_cases (canvas : option DOMRect) (st : State)
    (data : list Item) (e : MouseEvent) :
  pointerMove canvas st data e = data
  \/ exists (rect : DOMRect) (d : Dragging) (it u : Item),
       let hovered :=
         hoveredPosition (clientX e - left rect) (clientY e - top rect) in
       canvas = Some rect /\ draggingItem st = Some d
       /\ data !! index d = Some it
       /\ pointerMove canvas st data e = <[index d := u]> data
       /\ ((type d = type_move
            /\ hovered - default 0 (dragOffset st) <> startingPosition it
            /\ u = {| startingPosition := hovered - default 0 (dragOffset st);
                      size := size it |})
           \/ (type d = type_start
               /\ hovered < startingPosition it + size it - 1
               /\ u = {| startingPosition := hovered;
                         size := size it + (startingPosition it - hovered) |})
           \/ (type d = type_end
               /\ hovered > startingPosition it
               /\ u = {| startingPosition := startingPosition it;
                         size := hovered - startingPosition it + 1 |})).
Proof.
  unfold pointerMove.
  destruct (handleMouseMove_emitted_inv canvas data st e)
    as [-> | (rect & d & -> & Hd & Hem)]; [left; reflexivity |].
  destruct (emitted (handleMouseMove (Some rect) data st e))
    as [| j u |] eqn:Hcall; [left; reflexivity | | left; reflexivity].
  symmetry in Hem.
  destruct (gestureUpdate_inv _ _ _ _ _ _ Hem) as (-> & it & Hit & Hcases).
  right. exists rect, d, it, u. simpl.
  split; [reflexivity |]. split; [exact Hd |]. split; [exact Hit |].
  split; [apply handleUpdateItem_insert | exact Hcases].
Qed.

(** One pointer-move keeps the length and the other items. *)
Lemma pointerMove_frame (canvas : option DOMRect) (st : State)
    (data : list Item) (e : MouseEvent) (j : nat) :
  length (pointerMove canvas st data e) = length data
  /\ ((forall d : Dragging, draggingItem st = Some d -> index d <> j) ->
      pointerMove canvas st data e !! j = data !! j).
Proof.
  destruct (pointerMove_cases canvas st data e)
    as [-> | (rect & d & it & u & _ & Hd & _ & -> & _)].
  - split; [reflexivity | intros _; reflexivity].
  - split; [apply length_insert |].
    intros Hother. apply list_lookup_insert_ne. exact (Hother d Hd).
Qed.

(** One pointer-move keeps sizes of 1 or more. *)
Lemma pointerMove_keeps_sizes_positive (canvas : option DOMRect)
    (st : State) (data : list Item) (e : MouseEvent) :
  Forall (fun it : Item => 1 <= size it) data ->
  Forall (fun it : Item => 1 <= size it) (pointerMove canvas st data e).
Proof.
  intros Hpos.
  destruct (pointerMove_cases canvas st data e)
    as [-> | (rect & d & it & u & _ & _ & Hit & -> & Hcases)];
    [exact Hpos |].
  apply Forall_insert; [exact Hpos |].
  pose proof (Forall_lookup_1 _ _ _ _ Hpos Hit) as Hsz. simpl in Hsz.
  destruct Hcases as [(_ & _ & ->) | [(_ & Hlt & ->) | (_ & Hgt & ->)]];
    simpl; lia.
Qed.

(** X7.  Delivering the same pointer-move again, once the owner has merged
    the update, changes the data no further. *)
Theorem pointerMove_idempotent (canvas : option DOMRect) (st : State)
    (data : list Item) (e : MouseEvent) :
  pointerMove canvas st (pointerMove canvas st data e) e
  = pointerMove canvas st data e.
Proof.
  destruct (pointerMove_cases canvas st data e)
    as [Hsame | (rect & d & it & u & Hc)].
  - rewrite Hsame. exact Hsame.
  - cbv zeta in Hc. destruct Hc as (-> & Hd & Hit & Hrun & Hcases).
    set (hovered := hoveredPosition (clientX e - left rect)
                      (clientY e - top rect)) in *.
    rewrite Hrun.
    assert (Hu : <[index d := u]> data !! index d = Some u).
    { apply list_lookup_insert_eq. exact (lookup_lt_Some _ _ _ Hit). }
    unfold pointerMove.
    rewrite (handleMouseMove_emitted rect _ e st d Hd).
    unfold gestureUpdate. rewrite Hu. fold hovered.
    destruct Hcases as [(Hty & Hne & ->) | [(Hty & Hlt & ->) | (Hty & Hgt & ->)]];
      rewrite Hty; simpl.
    + rewrite Z.eqb_refl. reflexivity.
    + destruct (Z.ltb_spec hovered
                  (hovered + (size it + (startingPosition it - hovered)) - 1));
        [| lia].
      simpl. rewrite handleUpdateItem_insert, list_insert_insert_eq.
      f_equal. f_equal. lia.
    + rewrite Z.gtb_ltb.
      destruct (Z.ltb_spec (startingPosition it) hovered); [| lia].
      simpl. rewrite handleUpdateItem_insert, list_insert_insert_eq.
      reflexivity.
Qed.

(** The cell at which each border test succeeds. *)
Lemma borderMatch_inv (clicked x : Z) (item : Item) (ty : DragType) :
  borderMatch clicked x item = Some ty ->
  (ty = type_start /\ clicked = startingPosition item)
  \/ (ty = type_end /\ clicked = startingPosition item + size item - 1).
Proof.
  unfold borderMatch.
  destruct (Z.eqb_spec clicked (startingPosition item)) as [Heq | _]; simpl.
  - destruct (Z.rem x cellWidth <=? 10); [intros [= <-]; left; auto |].
    destruct (Z.eqb_spec clicked (startingPosition item + size item - 1));
      simpl; [| discriminate].
    destruct (cellWidth - Z.rem x cellWidth <=? 10); [| discriminate].
    intros [= <-]. right. auto.
  - destruct (Z.eqb_spec clicked (startingPosition item + size item - 1));
      simpl; [| discriminate].
    destruct (cellWidth - Z.rem x cellWidth <=? 10); [| discriminate].
    intros [= <-]. right. auto.
Qed.

(** An item is its two fields. *)
Lemma Item_eta (it : Item) :
  {| startingPosition := startingPosition it; size := size it |} = it.
Proof. destruct it; reflexivity. Qed.

(** X8.  A press from the idle state followed by a pointer-move at the same
    pixel leaves the data as it was, wherever the press lands. *)
Theorem press_and_hold_keeps_data (rect : DOMRect) (data : list Item)
    (e : MouseEvent) (st : State) :
  draggingItem st = None ->
  pointerMove (Some rect) (handleMouseDown (Some rect) data e st) data e
  = data.
Proof.
  intros Hidle. unfold pointerMove.
  set (x := clientX e - left rect).
  set (clicked := clickedPosition x (clientY e - top rect)).
  destruct (handleMouseDown_cases rect data e st)
    as [(i & it & ty & Hi & Hty & Hrun)
       | [(_ & i & it & Hi & Hin & Hrun) | (_ & Hrun)]];
    fold x in Hrun; fold clicked in Hrun.
  - rewrite Hrun.
    erewrite handleMouseMove_emitted by (simpl; reflexivity).
    unfold gestureUpdate. simpl. rewrite Hi.
    change (hoveredPosition (clientX e - left rect) (clientY e - top rect))
      with clicked.
    destruct (borderMatch_inv _ _ _ _ Hty) as [[-> Hc] | [-> Hc]];
      fold x in Hc; fold clicked in Hc; simpl.
    + destruct (clicked <? startingPosition it + size it - 1);
        [| reflexivity].
      simpl. rewrite handleUpdateItem_insert. apply list_insert_id.
      rewrite Hi. f_equal. rewrite <- (Item_eta it) at 1. f_equal; lia.
    + rewrite Z.gtb_ltb.
      destruct (startingPosition it <? clicked); [| reflexivity].
      simpl. rewrite handleUpdateItem_insert. apply list_insert_id.
      rewrite Hi. f_equal. rewrite <- (Item_eta it) at 1. f_equal; lia.
  - rewrite Hrun.
    erewrite handleMouseMove_emitted by (simpl; reflexivity).
    unfold gestureUpdate. simpl. rewrite Hi.
    change (hoveredPosition (clientX e - left rect) (clientY e - top rect))
      with clicked.
    replace (clicked - (clicked - startingPosition it))
      with (startingPosition it) by lia.
    rewrite Z.eqb_refl. reflexivity.
  - rewrite Hrun. rewrite (handleMouseMove_idle rect data e st Hidle).
    reflexivity.
Qed.

(** A press on the right border of item 0 and a move at the same pixel. *)
Lemma press_and_hold_keeps_data_witness :
  pointerMove (Some origin)
    (handleMouseDown (Some origin) App_data (pointerAt 555 45) initialState)
    App_data (pointerAt 555 45)
  = App_data.
Proof.
  exact (press_and_hold_keeps_data origin App_data (pointerAt 555 45)
           initialState eq_refl).
Defined.

(** X9.  A resize of an item of two cells or more calls [onUpdateItem] even
    when nothing changes: with the pointer on the start cell (for [start]) or
    on the end cell (for [end]) the update is the item itself. *)
Theorem resize_reemits_unchanged_item (rect : DOMRect) (data : list Item)
    (st : State) (e : MouseEvent) (d : Dragging) (it : Item) :
  let hovered :=
    hoveredPosition (clientX e - left rect) (clientY e - top rect) in
  draggingItem st = Some d ->
  data !! index d = Some it ->
  2 <= size it ->
  (type d = type_start /\ hovered = startingPosition it)
  \/ (type d = type_end /\ hovered = startingPosition it + size it - 1) ->
  emitted (handleMouseMove (Some rect) data st e) = onUpdateItem (index d) it.
Proof.
  intros hovered Hd Hit Hsz Hrest.
  rewrite (handleMouseMove_emitted rect data e st d Hd).
  unfold gestureUpdate. rewrite Hit. fold hovered.
  destruct Hrest as [[-> ->] | [-> ->]]; simpl.
  - destruct (Z.ltb_spec (startingPosition it)
                (startingPosition it + size it - 1)); [| lia].
    f_equal. rewrite <- (Item_eta it) at 5. f_equal; lia.
  - rewrite Z.gtb_ltb.
    destruct (Z.ltb_spec (startingPosition it)
                (startingPosition it + size it - 1)); [| lia].
    f_equal. rewrite <- (Item_eta it) at 5. f_equal; lia.
Qed.

(** An [end]-resize of item 0 with the pointer on its end cell, 14. *)
Lemma resize_reemits_unchanged_item_witness :
  emitted (handleMouseMove (Some origin) App_data
             {| draggingItem := Some {| index := 0%nat; type := type_end |};
                dragOffset := None |}
             (pointerAt 555 45))
  = onUpdateItem 0 {| startingPosition := 5; size := 10 |}.
Proof.
  apply (resize_reemits_unchanged_item origin App_data
           {| draggingItem := Some {| index := 0%nat; type := type_end |};
              dragOffset := None |}
           (pointerAt 555 45) {| index := 0%nat; type := type_end |}
           {| startingPosition := 5; size := 10 |}).
  - reflexivity.
  - reflexivity.
  - simpl. lia.
  - right. split; reflexivity.
Defined.

(** ** Sequences of pointer-moves within one gesture *)

(** The first event is handled on the data as given, the rest on the merge. *)
Lemma pointerMoves_cons (canvas : option DOMRect) (st : State)
    (e : MouseEvent) (es : list MouseEvent) (data : list Item) :
  pointerMoves canvas st (e :: es) data
  = pointerMoves canvas st es (pointerMove canvas st data e).
Proof. reflexivity. Qed.

(** X10.  Any sequence of pointer-moves of one gesture keeps the length of
    the list and every item other than the one the gesture is bound to. *)
Theorem pointerMoves_frame (canvas : option DOMRect) (st : State)
    (es : list MouseEvent) (data : list Item) (j : nat) :
  length (pointerMoves canvas st es data) = length data
  /\ ((forall d : Dragging, draggingItem st = Some d -> index d <> j) ->
      pointerMoves canvas st es data !! j = data !! j).
Proof.
  revert data. induction es as [| e es IH]; intros data.
  - split; [reflexivity | intros _; reflexivity].
  - rewrite pointerMoves_cons.
    destruct (IH (pointerMove canvas st data e)) as [Hlen Hother].
    destruct (pointerMove_frame canvas st data e j) as [Hlen1 Hother1].
    split; [congruence |].
    intros Hj. rewrite (Hother Hj). exact (Hother1 Hj).
Qed.

(** Two pointer-moves of a move of item 1 leave item 0 alone. *)
Lemma pointerMoves_frame_witness :
  pointerMoves (Some origin)
    {| draggingItem := Some {| index := 1%nat; type := type_move |};
       dragOffset := Some 2 |}
    [pointerAt 520 105; pointerAt 40 15] App_data !! 0%nat
  = App_data !! 0%nat.
Proof.
  apply (proj2 (pointerMoves_frame (Some origin)
                  {| draggingItem :=
                       Some {| index := 1%nat; type := type_move |};
                     dragOffset := Some 2 |}
                  [pointerAt 520 105; pointerAt 40 15] App_data 0%nat)).
  intros d Hd. injection Hd as <-. simpl. lia.
Defined.

(** X11.  If every item has size 1 or more, so has every item after any
    sequence of pointer-moves, in whatever gesture state. *)
Theorem pointerMoves_keep_sizes_positive (canvas : option DOMRect)
    (st : State) (es : list MouseEvent) (data : list Item) :
  Forall (fun it : Item => 1 <= size it) data ->
  Forall (fun it : Item => 1 <= size it) (pointerMoves canvas st es data).
Proof.
  revert data. induction es as [| e es IH]; intros data Hpos.
  - exact Hpos.
  - rewrite pointerMoves_cons. apply IH.
    apply pointerMove_keeps_sizes_positive. exact Hpos.
Qed.

(** An [end]-resize of item 0 taken to cell 6, then to cell 2. *)
Lemma pointerMoves_keep_sizes_positive_witness :
  Forall (fun it : Item => 1 <= size it)
    (pointerMoves (Some origin)
       {| draggingItem := Some {| index := 0%nat; type := type_end |};
          dragOffset := None |}
       [pointerAt 520 15; pointerAt 200 15] App_data).
Proof.
  apply pointerMoves_keep_sizes_positive.
  repeat constructor; simpl; lia.
Defined.

(** One pointer-move of a move gesture puts the item at hovered minus
    offset, whether or not the callback runs. *)
Lemma pointerMove_move_step (rect : DOMRect) (st : State) (data : list Item)
    (e : MouseEvent) (i : nat) (o : Z) (it : Item) :
  draggingItem st = Some {| index := i; type := type_move |} ->
  dragOffset st = Some o ->
  data !! i = Some it ->
  pointerMove (Some rect) st data e
  = <[i := {| startingPosition :=
                hoveredPosition (clientX e - left rect)
                  (clientY e - top rect) - o;
              size := size it |}]> data.
Proof.
  intros Hd Ho Hit. unfold pointerMove.
  rewrite (handleMouseMove_emitted rect data e st _ Hd), Ho.
  unfold gestureUpdate. simpl. rewrite Hit. simpl.
  set (hovered := hoveredPosition _ _).
  destruct (Z.eqb_spec (hovered - o) (startingPosition it)) as [Heq | Hne];
    simpl.
  - symmetry. apply list_insert_id. rewrite Hit. f_equal.
    rewrite <- (Item_eta it) at 1. f_equal. lia.
  - apply handleUpdateItem_insert.
Qed.

(** X12.  During a [move] of item [i] with offset [o], after any non-empty
    sequence of pointer-moves the item starts at the cell of the last event
    minus [o] and has its original size: the path does not matter. *)
Theorem move_gesture_follows_pointer (rect : DOMRect) (st : State)
    (es : list MouseEvent) (eN : MouseEvent) (data : list Item)
    (i : nat) (o : Z) (it : Item) :
  draggingItem st = Some {| index := i; type := type_move |} ->
  dragOffset st = Some o ->
  data !! i = Some it ->
  last es = Some eN ->
  pointerMoves (Some rect) st es data
  = <[i := {| startingPosition :=
                hoveredPosition (clientX eN - left rect)
                  (clientY eN - top rect) - o;
              size := size it |}]> data.
Proof.
  intros Hd Ho. revert data it.
  induction es as [| e es IH]; intros data it Hit Hlast.
  - discriminate Hlast.
  - rewrite pointerMoves_cons.
    rewrite (pointerMove_move_step rect st data e i o it Hd Ho Hit).
    destruct es as [| e' es'].
    + injection Hlast as <-. reflexivity.
    + rewrite (IH _ {| startingPosition :=
                         hoveredPosition (clientX e - left rect)
                           (clientY e - top rect) - o;
                       size := size it |}).
      * rewrite list_insert_insert_eq. reflexivity.
      * apply list_lookup_insert_eq. exact (lookup_lt_Some _ _ _ Hit).
      * exact Hlast.
Qed.

(** Item 1 grabbed at offset 2 and taken to cell 30, then to cell 0. *)
Lemma move_gesture_follows_pointer_witness :
  pointerMoves (Some origin)
    {| draggingItem := Some {| index := 1%nat; type := type_move |};
       dragOffset := Some 2 |}
    [pointerAt 520 105; pointerAt 40 15] App_data
  = [ {| startingPosition := 5; size := 10 |};
      {| startingPosition := -2; size := 15 |} ].
Proof.
  exact (move_gesture_follows_pointer origin
           {| draggingItem := Some {| index := 1%nat; type := type_move |};
              dragOffset := Some 2 |}
           [pointerAt 520 105; pointerAt 40 15] (pointerAt 40 15) App_data
           1 2 {| startingPosition := 20; size := 15 |}
           eq_refl eq_refl eq_refl eq_refl).
Defined.

(** X13.  Over any sequence of pointer-moves a [start]-resize keeps the end
    boundary (start plus size) of its item and an [end]-resize keeps its
    start. *)
Theorem resize_gestures_keep_their_anchor (canvas : option DOMRect)
    (st : State) (es : list MouseEvent) (data : list Item)
    (i : nat) (ty : DragType) (it : Item) :
  draggingItem st = Some {| index := i; type := ty |} ->
  data !! i = Some it ->
  exists it' : Item,
    pointerMoves canvas st es data !! i = Some it'
    /\ (ty = type_start ->
          startingPosition it' + size it' = startingPosition it + size it)
    /\ (ty = type_end -> startingPosition it' = startingPosition it).
Proof.
  intros Hd. revert data it.
  induction es as [| e es IH]; intros data it Hit.
  - exists it. auto.
  - rewrite pointerMoves_cons.
    destruct (pointerMove_cases canvas st data e)
      as [-> | (rect & d & it0 & u & Hc)]; [exact (IH data it Hit) |].
    cbv zeta in Hc. destruct Hc as (_ & Hd' & Hit0 & -> & Hcases).
    rewrite Hd in Hd'. injection Hd' as <-. simpl in *.
    rewrite Hit in Hit0. injection Hit0 as <-.
    destruct (IH (<[i := u]> data) u) as (it' & Hit' & Hstart & Hend).
    { apply list_lookup_insert_eq. exact (lookup_lt_Some _ _ _ Hit). }
    exists it'. split; [exact Hit' |].
    destruct Hcases as [(-> & _) | [(-> & _ & ->) | (-> & _ & ->)]].
    + split; discriminate.
    + split; [| discriminate]. intros _. rewrite (Hstart eq_refl). simpl. lia.
    + split; [discriminate |]. intros _. rewrite (Hend eq_refl). reflexivity.
Qed.

(** A [start]-resize of item 0 taken to cell 3, then to cell 9. *)
Lemma resize_gestures_keep_their_anchor_witness :
  exists it' : Item,
    pointerMoves (Some origin)
      {| draggingItem := Some {| index := 0%nat; type := type_start |};
         dragOffset := None |}
      [pointerAt 280 15; pointerAt 120 45] App_data !! 0%nat = Some it'
    /\ startingPosition it' + size it' = 15.
Proof.
  destruct (resize_gestures_keep_their_anchor (Some origin)
              {| draggingItem := Some {| index := 0%nat; type := type_start |};
                 dragOffset := None |}
              [pointerAt 280 15; pointerAt 120 45] App_data
              0 type_start {| startingPosition := 5; size := 10 |}
              eq_refl eq_refl)
    as (it' & Hit' & Hend & _).
  exists it'. split; [exact Hit' |]. exact (Hend eq_refl).
Defined.

(** ** Renderer: shape of the painted bar *)

Section Bar.

Variables (sp sz : Z).

(** Induction along the turns of the loop. *)
Lemma drawItemLoop_turns (P : Z -> Z -> list Segment -> Prop) :
  (forall rem cur : Z, rem <= 0 -> P rem cur []) ->
  (forall rem cur : Z,
      0 < rem ->
      P (rem - cellsInRowAt rem cur) (cur + cellsInRowAt rem cur)
        (drawItemLoop sp sz (rem - cellsInRowAt rem cur)
           (cur + cellsInRowAt rem cur)) ->
      P rem cur
        (segmentAt sp sz rem cur
         :: drawItemLoop sp sz (rem - cellsInRowAt rem cur)
              (cur + cellsInRowAt rem cur))) ->
  forall rem cur : Z, P rem cur (drawItemLoop sp sz rem cur).
Proof.
  intros Hdone Hturn.
  assert (Hall : forall (n : nat) (rem cur : Z),
             (Z.to_nat rem <= n)%nat -> P rem cur (drawItemLoop sp sz rem cur)).
  { induction n as [| n IH]; intros rem cur Hn.
    - rewrite drawItemLoop_done by lia. apply Hdone. lia.
    - destruct (Z_lt_le_dec 0 rem) as [Hpos | Hle].
      + rewrite drawItemLoop_walk by exact Hpos.
        apply Hturn; [exact Hpos |]. apply IH.
        pose proof (cellsInRowAt_bounds rem cur Hpos). lia.
      + rewrite drawItemLoop_done by exact Hle. apply Hdone. exact Hle. }
  intros rem cur. exact (Hall (Z.to_nat rem) rem cur (Nat.le_refl _)).
Qed.

(** The loop paints nothing exactly when nothing remains. *)
Lemma drawItemLoop_nil (rem cur : Z) :
  drawItemLoop sp sz rem cur = [] <-> rem <= 0.
Proof.
  split.
  - intros Hnil. destruct (Z_lt_le_dec 0 rem) as [Hpos | Hle]; [| exact Hle].
    rewrite drawItemLoop_walk in Hnil by exact Hpos. discriminate Hnil.
  - apply drawItemLoop_done.
Qed.

Lemma drawItemLoop_segments_ok (rem cur : Z) :
  0 <= sp <= cur -> cur + rem = sp + sz ->
  Forall (segment_ok sp sz) (drawItemLoop sp sz rem cur).
Proof.
  revert rem cur.
  apply (drawItemLoop_turns
           (fun rem cur l =>
              0 <= sp <= cur -> cur + rem = sp + sz -> Forall (segment_ok sp sz) l)).
  - intros rem cur _ _ _. constructor.
  - intros rem cur Hpos IH Hcur Hinv.
    pose proof (cellsInRowAt_bounds rem cur Hpos) as Hb.
    constructor; [| apply IH; lia].
    unfold segment_ok, segmentAt. simpl. fold (cellsInRowAt rem cur).
    assert (Hcol : 0 <= Z.rem cur cols < cols)
      by (apply Z.rem_bound_pos; unfold cols; lia).
    assert (Hfit : cellsInRowAt rem cur <= cols - Z.rem cur cols)
      by (unfold cellsInRowAt; lia).
    assert (Hdecomp : cur = cols * (cur / cols) + Z.rem cur cols).
    { rewrite Z.rem_mod_nonneg by (unfold cols; lia).
      apply Z.div_mod. unfold cols; lia. }
    repeat split; try lia.
Qed.

End Bar.

Section BarShape.

Variables (sp sz : Z).

(** Along the walk, segment [k] is flagged first only at the very start and
    flagged last only at the very end. *)
Lemma drawItemLoop_flags (rem cur : Z) (k : nat) (s : Segment) :
  sp <= cur -> cur + rem = sp + sz ->
  drawItemLoop sp sz rem cur !! k = Some s ->
  (isFirstCell s = true <-> k = 0%nat /\ cur = sp)
  /\ (isLastCell s = true <-> S k = length (drawItemLoop sp sz rem cur)).
Proof.
  revert rem cur k s.
  apply (drawItemLoop_turns sp sz
           (fun rem cur l =>
              forall (k : nat) (s : Segment),
                sp <= cur -> cur + rem = sp + sz -> l !! k = Some s ->
                (isFirstCell s = true <-> k = 0%nat /\ cur = sp)
                /\ (isLastCell s = true <-> S k = length l))).
  - intros rem cur _ k s _ _ Hk. discriminate Hk.
  - intros rem cur Hpos IH k s Hcur Hinv Hk.
    pose proof (cellsInRowAt_bounds rem cur Hpos) as Hb.
    destruct k as [| k].
    + injection Hk as <-. unfold segmentAt. simpl. fold (cellsInRowAt rem cur).
      split.
      * rewrite Z.eqb_eq. intuition lia.
      * rewrite Z.eqb_eq.
        destruct (Z_lt_le_dec 0 (rem - cellsInRowAt rem cur)) as [Hmore | Hend].
        -- rewrite (drawItemLoop_walk sp sz _ _ Hmore). simpl. split; lia.
        -- rewrite (drawItemLoop_done sp sz _ _ Hend). simpl. split; lia.
    + simpl in Hk.
      destruct (IH k s ltac:(lia) ltac:(lia) Hk) as [Hfirst Hlast].
      split.
      * rewrite Hfirst. split; [lia | intros [Hk0 _]; discriminate Hk0].
      * rewrite Hlast. simpl. split; lia.
Qed.

(** Along a walk over cells of the grid proper, segment [k] is on the
    [k]-th row after the first, starts at column 0 unless it is the first,
    and ends at the last column unless it is the last. *)
Lemma drawItemLoop_rows (rem cur : Z) (k : nat) (s : Segment) :
  0 <= cur ->
  drawItemLoop sp sz rem cur !! k = Some s ->
  row s = cur / cols + Z.of_nat k
  /\ col s = (if Nat.eqb k 0 then cur mod cols else 0)
  /\ ((S k < length (drawItemLoop sp sz rem cur))%nat ->
      col s + cellsInRow s = cols).
Proof.
  revert rem cur k s.
  apply (drawItemLoop_turns sp sz
           (fun rem cur l =>
              forall (k : nat) (s : Segment),
                0 <= cur -> l !! k = Some s ->
                row s = cur / cols + Z.of_nat k
                /\ col s = (if Nat.eqb k 0 then cur mod cols else 0)
                /\ ((S k < length l)%nat -> col s + cellsInRow s = cols))).
  - intros rem cur _ k s _ Hk. discriminate Hk.
  - intros rem cur Hpos IH k s Hcur Hk.
    pose proof (cellsInRowAt_bounds rem cur Hpos) as Hb.
    assert (Hrem : Z.rem cur cols = cur mod cols)
      by (apply Z.rem_mod_nonneg; unfold cols; lia).
    assert (Hmod : 0 <= cur mod cols < cols)
      by (apply Z.mod_pos_bound; unfold cols; lia).
    assert (Hdecomp : cur = cols * (cur / cols) + cur mod cols)
      by (apply Z.div_mod; unfold cols; lia).
    (* a further segment exists only if this one filled its row *)
    assert (Hfull : forall (k' : nat) (s' : Segment),
               drawItemLoop sp sz (rem - cellsInRowAt rem cur)
                 (cur + cellsInRowAt rem cur) !! k' = Some s' ->
               cellsInRowAt rem cur = cols - cur mod cols).
    { intros k' s' Hk'.
      destruct (Z_lt_le_dec 0 (rem - cellsInRowAt rem cur)) as [Hmore | Hend].
      - unfold cellsInRowAt in *. rewrite Hrem in *. lia.
      - rewrite (drawItemLoop_done sp sz _ _ Hend) in Hk'. discriminate Hk'. }
    destruct k as [| k].
    + injection Hk as <-. unfold segmentAt. simpl. fold (cellsInRowAt rem cur).
      split; [lia |]. split; [exact Hrem |].
      intros Hlen.
      destruct (drawItemLoop sp sz (rem - cellsInRowAt rem cur)
                  (cur + cellsInRowAt rem cur)) as [| s' rest] eqn:Hrest;
        [simpl in Hlen; lia |].
      rewrite Hrem. rewrite (Hfull 0%nat s' eq_refl). lia.
    + simpl in Hk. pose proof (Hfull k s Hk) as Hc.
      destruct (IH k s ltac:(lia) Hk) as (Hrow & Hcol & Hnext).
      assert (Hnextrow : cur + cellsInRowAt rem cur = cols * (cur / cols + 1))
        by lia.
      assert (Hdiv : (cur + cellsInRowAt rem cur) / cols = cur / cols + 1).
      { rewrite Hnextrow. rewrite Z.mul_comm.
        apply Z.div_mul. unfold cols; lia. }
      assert (Hmod0 : (cur + cellsInRowAt rem cur) mod cols = 0).
      { rewrite Hnextrow. rewrite Z.mul_comm.
        apply Z.mod_mul. unfold cols; lia. }
      split; [rewrite Hrow, Hdiv; lia |]. split.
      * rewrite Hcol. simpl. destruct (Nat.eqb k 0); [exact Hmod0 | reflexivity].
      * simpl. intros Hlen. apply Hnext. lia.
Qed.


End BarShape.

(** From a cell of the grid proper the walk paints one segment for each row
    between its first and its last cell. *)
Lemma drawItemLoop_length (sp sz rem cur : Z) :
  0 <= cur -> 0 < rem ->
  Z.of_nat (length (drawItemLoop sp sz rem cur))
  = (cur + rem - 1) / cols - cur / cols + 1.
Proof.
  revert rem cur.
  apply (drawItemLoop_turns sp sz
           (fun rem cur l =>
              0 <= cur -> 0 < rem ->
              Z.of_nat (length l) = (cur + rem - 1) / cols - cur / cols + 1)).
  - intros rem cur Hle _ Hpos. lia.
  - intros rem cur Hpos IH Hcur _.
    pose proof (cellsInRowAt_bounds rem cur Hpos) as Hb.
    assert (Hrem : Z.rem cur cols = cur mod cols)
      by (apply Z.rem_mod_nonneg; unfold cols; lia).
    assert (Hmod : 0 <= cur mod cols < cols)
      by (apply Z.mod_pos_bound; unfold cols; lia).
    assert (Hdecomp : cur = cols * (cur / cols) + cur mod cols)
      by (apply Z.div_mod; unfold cols; lia).
    destruct (Z_lt_le_dec 0 (rem - cellsInRowAt rem cur)) as [Hmore | Hend].
    + simpl length. rewrite Nat2Z.inj_succ, IH by lia.
      assert (Hc : cellsInRowAt rem cur = cols - cur mod cols)
        by (unfold cellsInRowAt in *; rewrite Hrem in *; lia).
      assert (Hdiv : (cur + cellsInRowAt rem cur) / cols = cur / cols + 1).
      { replace (cur + cellsInRowAt rem cur) with ((cur / cols + 1) * cols)
          by lia.
        apply Z.div_mul. unfold cols; lia. }
      rewrite Hdiv.
      replace (cur + cellsInRowAt rem cur
               + (rem - cellsInRowAt rem cur) - 1) with (cur + rem - 1) by lia.
      lia.
    + rewrite (drawItemLoop_done sp sz _ _ Hend). simpl length.
      assert (Hc : cellsInRowAt rem cur = rem) by lia.
      assert (Hfit : rem <= cols - cur mod cols)
        by (unfold cellsInRowAt in Hc; rewrite Hrem in Hc; lia).
      assert (Hsame : (cur + rem - 1) / cols = cur / cols).
      { symmetry.
        apply (Z.div_unique_pos _ cols (cur / cols) (cur mod cols + rem - 1));
          unfold cols in *; lia. }
      rewrite Hsame. lia.
Qed.

(** ** Renderer: the painted bar of an item *)

(** X15.  An item is painted as no rectangle at all exactly when its size is
    zero or negative. *)
Theorem drawItem_nil_iff (item : Item) :
  drawItem item = [] <-> size item <= 0.
Proof.
  unfold drawItem. apply drawItemLoop_nil.
Qed.

(** An item of size 0. *)
Lemma drawItem_nil_iff_witness :
  drawItem {| startingPosition := 5; size := 0 |} = [].
Proof.
  apply (proj2 (drawItem_nil_iff {| startingPosition := 5; size := 0 |})).
  simpl. lia.
Defined.

(** X16.  Among the segments of an item exactly the first is flagged first
    (left margin) and exactly the last is flagged last (right margin). *)
Theorem bar_end_margins (item : Item) (k : nat) (s : Segment) :
  drawItem item !! k = Some s ->
  (isFirstCell s = true <-> k = 0%nat)
  /\ (isLastCell s = true <-> S k = length (drawItem item)).
Proof.
  intros Hk. unfold drawItem in *.
  destruct (drawItemLoop_flags _ _ _ _ k s (Z.le_refl _) eq_refl Hk)
    as [Hfirst Hlast].
  split; [| exact Hlast]. rewrite Hfirst. intuition.
Qed.

(** Of the two segments of start 5, size 10 the second is the last. *)
Lemma bar_end_margins_witness :
  isLastCell (segmentAt 5 10 7 8) = true.
Proof.
  apply (proj2 (bar_end_margins {| startingPosition := 5; size := 10 |}
                  1 (segmentAt 5 10 7 8) eq_refl)).
  reflexivity.
Defined.

(** X17.  For an item that starts at a cell of the grid proper, segment [k]
    is on row [start / 8 + k]; it starts at column 0 unless it is the first,
    which starts at column [start mod 8]; it ends at the last column unless
    it is the last; and there are as many segments as rows between the first
    and the last cell of the span. *)
Theorem bar_wraps_row_by_row (item : Item) (k : nat) (s : Segment) :
  0 <= startingPosition item ->
  drawItem item !! k = Some s ->
  row s = startingPosition item / cols + Z.of_nat k
  /\ col s = (if Nat.eqb k 0 then startingPosition item mod cols else 0)
  /\ ((S k < length (drawItem item))%nat -> col s + cellsInRow s = cols)
  /\ Z.of_nat (length (drawItem item))
     = (startingPosition item + size item - 1) / cols
       - startingPosition item / cols + 1.
Proof.
  intros Hstart Hk. unfold drawItem in *.
  destruct (drawItemLoop_rows _ _ _ _ k s Hstart Hk) as (Hrow & Hcol & Hfull).
  split; [exact Hrow |]. split; [exact Hcol |]. split; [exact Hfull |].
  apply drawItemLoop_length; [exact Hstart |].
  destruct (Z_lt_le_dec 0 (size item)) as [Hpos | Hle]; [exact Hpos |].
  rewrite drawItemLoop_done in Hk by exact Hle. discriminate Hk.
Qed.

(** The second segment of start 5, size 10 is on row 1. *)
Lemma bar_wraps_row_by_row_witness :
  row (segmentAt 5 10 7 8) = 5 / cols + 1.
Proof.
  apply (bar_wraps_row_by_row {| startingPosition := 5; size := 10 |}
           1 (segmentAt 5 10 7 8)).
  - simpl. lia.
  - reflexivity.
Defined.



(** The rows of the canvas hold [gridSize] cells. *)
Lemma rows_enough (gridSize : Z) : gridSize <= cols * rows gridSize.
Proof.
  unfold rows, cols.
  pose proof (Z.mul_div_le (- gridSize) 8). lia.
Qed.

(** X19.  For an item inside the grid ([0 <= start], [start + size <= size]
    of the grid) every painted rectangle has positive width and height and
    lies inside the canvas the effect has sized. *)
Theorem bar_inside_canvas (gridSize : Z) (item : Item) (s : Segment)
    (x y w h : Z) :
  0 <= startingPosition item ->
  startingPosition item + size item <= gridSize ->
  s ∈ drawItem item ->
  fillRect s = (x, y, w, h) ->
  (0 <= x /\ 0 < w /\ x + w <= canvasWidth)
  /\ (0 <= y /\ 0 < h /\ y + h <= canvasHeight gridSize).
Proof.
  intros Hstart Hfit Hin Hrect.
  pose proof (drawItemLoop_segments_ok (startingPosition item) (size item)
                (size item) (startingPosition item)
                ltac:(lia) eq_refl) as Hok.
  rewrite Forall_forall in Hok. specialize (Hok s Hin).
  destruct Hok as (Hlo & Hhi & Hcol & Hcells & Hpos & Hfill).
  rewrite Hfill in Hrect. injection Hrect as <- <- <- <-.
  pose proof (rows_enough gridSize) as Hrows.
  unfold canvasWidth, canvasHeight, cellWidth, cellHeight, cols, rowMargin,
    cellMargin in *.
  destruct (isFirstCell s), (isLastCell s); lia.
Qed.

(** The first rectangle of item 0 on [App]'s canvas of 640 x 180. *)
Lemma bar_inside_canvas_witness :
  (0 <= 404 /\ 0 < 236 /\ 404 + 236 <= canvasWidth)
  /\ (0 <= 4 /\ 0 < 22 /\ 4 + 22 <= canvasHeight App_size).
Proof.
  apply (bar_inside_canvas App_size {| startingPosition := 5; size := 10 |}
           (segmentAt 5 10 10 5) 404 4 236 22).
  - simpl. lia.
  - unfold App_size. simpl. lia.
  - apply (list_elem_of_lookup_2 _ 0%nat). reflexivity.
  - reflexivity.
Defined.

(** ** Renderer: the grid *)

(** What the body of the inner loop puts on the canvas for one cell. *)
Lemma elem_of_drawCell (size i j : Z) (op : DrawOp) :
  op ∈ drawCell size i j <->
  (i = 0 /\ op = strokeLine (j * 80) (i * 30) (j * 80 + 80) (i * 30))
  \/ op = strokeLine (j * 80 + 80) (i * 30) (j * 80 + 80) (i * 30 + 30)
  \/ op = strokeLine (j * 80) (i * 30 + 30) (j * 80 + 80) (i * 30 + 30)
  \/ (j = 0 /\ op = strokeLine (j * 80) (i * 30) (j * 80) (i * 30 + 30))
  \/ (i * 8 + j < size /\ op = fillText (i * 8 + j) (j * 80 + 5) (i * 30 + 15)).
Proof.
  unfold drawCell, cellWidth, cellHeight, cols.
  rewrite !elem_of_app, !list_elem_of_singleton.
  destruct (Z.eqb_spec i 0), (Z.eqb_spec j 0), (Z.ltb_spec (i * 8 + j) size);
    rewrite ?list_elem_of_singleton, ?elem_of_nil; intuition lia.
Qed.

(** The grid is the cells of rows [0 .. rows - 1] and columns [0 .. 7]. *)
Lemma elem_of_drawGrid (size : Z) (op : DrawOp) :
  op ∈ drawGrid size <->
  exists i j : Z,
    0 <= i < rows size /\ 0 <= j < cols /\ op ∈ drawCell size i j.
Proof.
  unfold drawGrid. rewrite list_elem_of_bind. split.
  - intros (i & Hop & Hi). apply list_elem_of_bind in Hop as (j & Hop & Hj).
    apply elem_of_seqZ in Hi. apply elem_of_seqZ in Hj.
    exists i, j. split; [lia |]. split; [lia | exact Hop].
  - intros (i & j & Hi & Hj & Hop). exists i. split.
    + apply list_elem_of_bind. exists j. split; [exact Hop |].
      apply elem_of_seqZ. lia.
    + apply elem_of_seqZ. lia.
Qed.

(** Two cells of the grid proper share no line and no label. *)
Lemma drawCell_disjoint (size i1 j1 i2 j2 : Z) (op : DrawOp) :
  0 <= i1 -> 0 <= j1 -> 0 <= i2 -> 0 <= j2 ->
  op ∈ drawCell size i1 j1 -> op ∈ drawCell size i2 j2 ->
  i1 = i2 /\ j1 = j2.
Proof.
  intros Hi1 Hj1 Hi2 Hj2.
  rewrite !elem_of_drawCell.
  intros [(Ha & ->) | [-> | [-> | [(Ha & ->) | (Ha & ->)]]]]
         [(Hb & Hop) | [Hop | [Hop | [(Hb & Hop) | (Hb & Hop)]]]];
    try discriminate Hop; injection Hop; intros; lia.
Qed.

(** One cell strokes distinct lines. *)
Lemma drawCell_NoDup (size i j : Z) : NoDup (drawCell size i j).
Proof.
  unfold drawCell, cellWidth, cellHeight, cols.
  destruct (i =? 0), (j =? 0), (i * 8 + j <? size); simpl;
    repeat (apply NoDup_cons; split;
            [rewrite ?elem_of_cons, ?elem_of_nil;
             intros Hdup;
             repeat (destruct Hdup as [Hdup | Hdup]);
             try contradiction; try discriminate Hdup;
             injection Hdup; intros; lia
            |]);
    apply NoDup_nil; exact I.
Qed.

(** X22.  The grid loops stroke no line twice and write no label twice. *)
Theorem drawGrid_NoDup (size : Z) : NoDup (drawGrid size).
Proof.
  unfold drawGrid. apply NoDup_bind.
  - intros i1 i2 op Hi1 Hi2 Hop1 Hop2.
    apply elem_of_seqZ in Hi1. apply elem_of_seqZ in Hi2.
    apply list_elem_of_bind in Hop1 as (j1 & Hop1 & Hj1).
    apply list_elem_of_bind in Hop2 as (j2 & Hop2 & Hj2).
    apply elem_of_seqZ in Hj1. apply elem_of_seqZ in Hj2.
    apply (drawCell_disjoint size i1 j1 i2 j2 op); (lia || assumption).
  - intros i Hi. apply elem_of_seqZ in Hi. apply NoDup_bind.
    + intros j1 j2 op Hj1 Hj2 Hop1 Hop2.
      apply elem_of_seqZ in Hj1. apply elem_of_seqZ in Hj2.
      apply (drawCell_disjoint size i j1 i j2 op); (lia || assumption).
    + intros j _. apply drawCell_NoDup.
    + apply NoDup_seqZ.
  - apply NoDup_seqZ.
Qed.

(** X24.  The pixel at which the grid writes a label [k] is mapped back to
    the cell [k] by both handlers. *)
Theorem grid_label_maps_back (size k x y : Z) :
  fillText k x y ∈ drawGrid size ->
  0 <= k < size /\ clickedPosition x y = k /\ hoveredPosition x y = k.
Proof.
  rewrite elem_of_drawGrid. intros (i & j & Hi & Hj & Hop).
  apply elem_of_drawCell in Hop.
  destruct Hop as [(_ & Hop) | [Hop | [Hop | [(_ & Hop) | (Hlt & Hop)]]]];
    try discriminate Hop.
  injection Hop as -> -> ->. unfold cols in Hj.
  assert (Hrow : (i * 30 + 15) / 30 = i)
    by (symmetry; apply (Z.div_unique_pos _ 30 i 15); lia).
  assert (Hcol : (j * 80 + 5) / 80 = j)
    by (symmetry; apply (Z.div_unique_pos _ 80 j 5); lia).
  unfold clickedPosition, hoveredPosition, cellWidth, cellHeight, cols.
  rewrite Hrow, Hcol. split; [lia |]. split; reflexivity.
Qed.

(** The label of cell 13. *)
Lemma grid_label_maps_back_witness :
  clickedPosition 405 45 = 13.
Proof.
  apply (grid_label_maps_back App_size 13 405 45).
  apply elem_of_drawGrid. exists 1, 5.
  split; [vm_compute; intuition congruence |].
  split; [unfold cols; lia |].
  apply elem_of_drawCell. right. right. right. right.
  split; [unfold App_size; lia | reflexivity].
Defined.

(** X25.  Every line of the grid is horizontal or vertical, runs left to
    right or top to bottom, and lies inside the canvas. *)
Theorem grid_strokes_inside_canvas (size x1 y1 x2 y2 : Z) :
  strokeLine x1 y1 x2 y2 ∈ drawGrid size ->
  0 <= x1 <= x2 /\ x2 <= canvasWidth
  /\ 0 <= y1 <= y2 /\ y2 <= canvasHeight size
  /\ (x1 = x2 \/ y1 = y2).
Proof.
  rewrite elem_of_drawGrid. intros (i & j & Hi & Hj & Hop).
  apply elem_of_drawCell in Hop.
  unfold canvasWidth, canvasHeight, cellWidth, cellHeight, cols in *.
  destruct Hop as [(_ & Hop) | [Hop | [Hop | [(_ & Hop) | (_ & Hop)]]]];
    try discriminate Hop; injection Hop as -> -> -> ->; lia.
Qed.

(** The right border of the cell of row 1, column 5. *)
Lemma grid_strokes_inside_canvas_witness :
  0 <= 480 <= 480 /\ 480 <= canvasWidth
  /\ 0 <= 30 <= 60 /\ 60 <= canvasHeight App_size
  /\ (480 = 480 \/ 30 = 60).
Proof.
  apply (grid_strokes_inside_canvas App_size 480 30 480 60).
  apply elem_of_drawGrid. exists 1, 5.
  split; [vm_compute; intuition congruence |].
  split; [unfold cols; lia |].
  apply elem_of_drawCell. right. left. reflexivity.
Defined.

(** X26.  The effect gives the canvas just the rows that [size] cells need:
    for [size >= 1] the rows hold all [size] cells and the last row holds at
    least one of them; for [size <= 0] nothing is drawn. *)
Theorem grid_rows_exact (size : Z) :
  (size <= 0 -> drawGrid size = [])
  /\ (1 <= size -> cols * (rows size - 1) < size <= cols * rows size).
Proof.
  unfold rows, cols.
  pose proof (Z.div_mod (- size) 8 ltac:(lia)) as Hdm.
  pose proof (Z.mod_pos_bound (- size) 8 ltac:(lia)) as Hb.
  split.
  - intros Hle. unfold drawGrid, rows, cols.
    rewrite (seqZ_nil 0 (- (- size / 8))) by lia. reflexivity.
  - intros Hpos. lia.
Qed.

(** 48 cells take 6 rows. *)
Lemma grid_rows_exact_witness :
  cols * (rows App_size - 1) < App_size <= cols * rows App_size.
Proof.
  apply (proj2 (grid_rows_exact App_size)). unfold App_size. lia.
Defined.

(** X27.  A pixel inside the canvas maps to a cell of the drawn grid, whose
    row and column are those of the pixel. *)
Theorem pointer_inside_canvas_cell (size x y : Z) :
  0 <= x < canvasWidth -> 0 <= y < canvasHeight size ->
  0 <= clickedPosition x y < cols * rows size
  /\ clickedPosition x y / cols = y / cellHeight
  /\ clickedPosition x y mod cols = x / cellWidth.
Proof.
  unfold canvasWidth, canvasHeight, clickedPosition, cellWidth, cellHeight,
    cols.
  intros Hx Hy.
  assert (Hc : 0 <= x / 80 < 8).
  { split; [apply Z.div_pos; lia | apply Z.div_lt_upper_bound; lia]. }
  assert (Hr : 0 <= y / 30 < rows size).
  { split; [apply Z.div_pos; lia | apply Z.div_lt_upper_bound; lia]. }
  split; [lia |]. split.
  - symmetry. apply (Z.div_unique_pos _ 8 (y / 30) (x / 80)); lia.
  - symmetry. apply (Z.mod_unique_pos _ 8 (y / 30) (x / 80)); lia.
Qed.

(** Pixel (405, 45) of [App]'s canvas. *)
Lemma pointer_inside_canvas_cell_witness :
  0 <= clickedPosition 405 45 < cols * rows App_size
  /\ clickedPosition 405 45 / cols = 45 / cellHeight
  /\ clickedPosition 405 45 mod cols = 405 / cellWidth.
Proof.
  apply (pointer_inside_canvas_cell App_size 405 45).
  - unfold canvasWidth, cols, cellWidth. lia.
  - vm_compute. intuition congruence.
Defined.

(** X23.  The grid writes the label [k] exactly for the cells
    [0 <= k < size], each at 5 pixels right of and 15 pixels below the
    top-left corner of cell [k]. *)
Theorem grid_labels_every_cell (size k x y : Z) :
  fillText k x y ∈ drawGrid size <->
  0 <= k < size
  /\ x = k mod cols * cellWidth + 5
  /\ y = k / cols * cellHeight + 15.
Proof.
  rewrite elem_of_drawGrid. unfold cols, cellWidth, cellHeight. split.
  - intros (i & j & Hi & Hj & Hop).
    apply elem_of_drawCell in Hop.
    destruct Hop as [(_ & Hop) | [Hop | [Hop | [(_ & Hop) | (Hlt & Hop)]]]];
      try discriminate Hop.
    injection Hop as -> -> ->.
    assert (Hdiv : (i * 8 + j) / 8 = i)
      by (symmetry; apply (Z.div_unique_pos _ 8 i j); lia).
    assert (Hmod : (i * 8 + j) mod 8 = j)
      by (symmetry; apply (Z.mod_unique_pos _ 8 i j); lia).
    rewrite Hdiv, Hmod. lia.
  - intros (Hk & -> & ->).
    pose proof (Z.div_mod k 8 ltac:(lia)) as Hdm.
    pose proof (Z.mod_pos_bound k 8 ltac:(lia)) as Hb.
    pose proof (rows_enough size) as Hrows. unfold cols in Hrows.
    exists (k / 8), (k mod 8).
    split; [lia |]. split; [lia |].
    apply elem_of_drawCell. right. right. right. right.
    split; [lia |]. f_equal. lia.
Qed.

(** Cell 13 of [App]'s grid is labelled at pixel (405, 45). *)
Lemma grid_labels_every_cell_witness :
  fillText 13 405 45 ∈ drawGrid App_size.
Proof.
  apply (proj2 (grid_labels_every_cell App_size 13 405 45)).
  unfold App_size. split; [lia |]. split; reflexivity.
Defined.

(** X20.  A press on a pixel that the overlay of a listed item covers (the
    item starting at a cell of the grid proper) maps to a cell of that item's
    span and always records a gesture. *)
Theorem press_on_painted_bar_starts_gesture (rect : DOMRect)
    (data : list Item) (e : MouseEvent) (st : State)
    (i : nat) (item : Item) (s : Segment) :
  let x := clientX e - left rect in
  let y := clientY e - top rect in
  data !! i = Some item ->
  0 <= startingPosition item ->
  s ∈ drawItem item ->
  inRect (fillRect s) x y ->
  insideSpan (clickedPosition x y) item = true
  /\ exists d : Dragging,
       draggingItem (handleMouseDown (Some rect) data e st) = Some d.
Proof.
  intros x y Hi Hstart Hin Hrect.
  assert (Hinside : insideSpan (clickedPosition x y) item = true).
  { pose proof (drawItemLoop_segments_ok (startingPosition item) (size item)
                  (size item) (startingPosition item)
                  ltac:(lia) eq_refl) as Hok.
    rewrite Forall_forall in Hok. specialize (Hok s Hin).
    destruct Hok as (Hlo & Hhi & Hcol & Hcells & Hpos & Hfill).
    rewrite Hfill in Hrect. unfold inRect in Hrect.
    unfold cellWidth, cellHeight, cols, rowMargin, cellMargin in *.
    destruct Hrect as [Hx Hy].
    assert (Hyrow : y / 30 = row s).
    { symmetry. apply (Z.div_unique_pos _ 30 (row s) (y - row s * 30)); lia. }
    pose proof (Z.div_mod x 80 ltac:(lia)) as Hdm.
    pose proof (Z.mod_pos_bound x 80 ltac:(lia)) as Hb.
    assert (Hxcol : col s <= x / 80 < col s + cellsInRow s)
      by (destruct (isFirstCell s), (isLastCell s); lia).
    unfold insideSpan, clickedPosition, cellWidth, cellHeight, cols.
    rewrite Hyrow. apply andb_true_intro. split.
    - apply Z.geb_le. lia.
    - apply Z.ltb_lt. lia. }
  split; [exact Hinside |].
  destruct (handleMouseDown_cases rect data e st)
    as [(j & it & ty & _ & _ & ->)
       | [(_ & j & it & _ & _ & ->) | (Hnone & _)]].
  - eexists. reflexivity.
  - eexists. reflexivity.
  - fold x in Hnone. fold y in Hnone.
    destruct (Hnone i item Hi) as [_ Hout]. congruence.
Qed.

(** A press at pixel (450, 10), on the first rectangle of item 0. *)
Lemma press_on_painted_bar_starts_gesture_witness :
  exists d : Dragging,
    draggingItem (handleMouseDown (Some origin) App_data (pointerAt 450 10)
                    initialState)
    = Some d.
Proof.
  apply (press_on_painted_bar_starts_gesture origin App_data
           (pointerAt 450 10) initialState 0
           {| startingPosition := 5; size := 10 |} (segmentAt 5 10 10 5)).
  - reflexivity.
  - simpl. lia.
  - apply (list_elem_of_lookup_2 _ 0%nat). reflexivity.
  - vm_compute. intuition congruence.
Defined.

(** X14.  Releasing the pointer returns to the idle state whatever the state
    was; after it no pointer-move calls [onUpdateItem] and any sequence of
    them leaves the data as it was. *)
Theorem release_ends_gesture (canvas : option DOMRect) (st : State)
    (es : list MouseEvent) (data : list Item) :
  handleMouseUp st = initialState
  /\ Forall (fun e : MouseEvent =>
               emitted (handleMouseMove canvas data (handleMouseUp st) e)
               = NoCall) es
  /\ pointerMoves canvas (handleMouseUp st) es data = data.
Proof.
  split; [reflexivity |]. split.
  - apply Forall_forall. intros e _.
    destruct canvas as [rect |]; reflexivity.
  - induction es as [| e es IH]; [reflexivity |].
    rewrite pointerMoves_cons.
    replace (pointerMove canvas (handleMouseUp st) data e) with data;
      [exact IH |].
    unfold pointerMove. destruct canvas as [rect |]; reflexivity.
Qed.

(** The items are painted one after the other, each by its own walk. *)
Lemma drawItems_bind (data : list Item) : drawItems data = data ≫= drawItem.
Proof.
  unfold drawItems, forEach.
  assert (Hacc : forall (k : nat) (painted : list Segment),
             forEach_from (fun item _ painted => painted ++ drawItem item)
               k data painted
             = painted ++ (data ≫= drawItem)).
  { induction data as [| item rest IH]; intros k painted.
    - cbn [forEach_from]. rewrite app_nil_r. reflexivity.
    - cbn [forEach_from]. rewrite IH, bind_cons, app_assoc. reflexivity. }
  exact (Hacc 0%nat []).
Qed.

(** ** Renderer: row-segments and painted pixels *)

Section PaintedPixels.

Variables (sp sz px py : Z).

(** The rectangle of one turn of the loop, over cells of the grid proper,
    covers the bar pixels of the cells the turn takes, and no other pixel. *)
Lemma segmentAt_rect (rem cur : Z) :
  0 <= sp <= cur -> cur + rem = sp + sz -> 0 < rem ->
  inRect (fillRect (segmentAt sp sz rem cur)) px py
  <-> barPixelFrom sp sz cur (cellsInRowAt rem cur) px py.
Proof.
  intros Hcur Hinv Hpos.
  pose proof (cellsInRowAt_bounds rem cur Hpos) as Hb.
  assert (Hrem : Z.rem cur cols = cur mod cols)
    by (apply Z.rem_mod_nonneg; unfold cols; lia).
  unfold barPixelFrom, segmentAt, inRect, clickedPosition. simpl.
  fold (cellsInRowAt rem cur).
  assert (Hfit : cellsInRowAt rem cur <= cols - cur mod cols)
    by (unfold cellsInRowAt; rewrite Hrem; lia).
  rewrite Hrem.
  unfold canvasWidth, cellWidth, cellHeight, cols, rowMargin, cellMargin in *.
  pose proof (Z.div_mod cur 8 ltac:(lia)) as Hc.
  pose proof (Z.mod_pos_bound cur 8 ltac:(lia)) as Hcb.
  pose proof (Z.div_mod px 80 ltac:(lia)) as Hx.
  pose proof (Z.mod_pos_bound px 80 ltac:(lia)) as Hxb.
  pose proof (Z.div_mod py 30 ltac:(lia)) as Hy.
  pose proof (Z.mod_pos_bound py 30 ltac:(lia)) as Hyb.
  destruct (Z.eqb_spec cur sp);
    destruct (Z.eqb_spec (cur + cellsInRowAt rem cur - 1) (sp + sz - 1));
    lia.
Qed.

(** Along a walk over cells of the grid proper exactly one rectangle covers
    a bar pixel of the cells still to come, and none covers another pixel. *)
Lemma drawItemLoop_painted (rem cur : Z) :
  0 <= sp <= cur -> cur + rem = sp + sz ->
  length (filter (fun s : Segment => inRect (fillRect s) px py)
            (drawItemLoop sp sz rem cur))
  = if decide (barPixelFrom sp sz cur rem px py) then 1%nat else 0%nat.
Proof.
  revert rem cur.
  apply (drawItemLoop_turns sp sz
           (fun rem cur l =>
              0 <= sp <= cur -> cur + rem = sp + sz ->
              length (filter (fun s : Segment => inRect (fillRect s) px py) l)
              = if decide (barPixelFrom sp sz cur rem px py)
                then 1%nat else 0%nat)).
  - intros rem cur Hle _ _.
    destruct (decide (barPixelFrom sp sz cur rem px py)) as [Hbar | _];
      [| reflexivity].
    unfold barPixelFrom in Hbar. lia.
  - intros rem cur Hpos IH Hcur Hinv.
    pose proof (cellsInRowAt_bounds rem cur Hpos) as Hb.
    pose proof (segmentAt_rect rem cur Hcur Hinv Hpos) as Hhead.
    specialize (IH ltac:(lia) ltac:(lia)).
    destruct (decide (inRect (fillRect (segmentAt sp sz rem cur)) px py))
      as [Hin | Hout].
    + rewrite filter_cons_True by exact Hin. simpl length. rewrite IH.
      apply Hhead in Hin.
      destruct (decide (barPixelFrom sp sz (cur + cellsInRowAt rem cur)
                          (rem - cellsInRowAt rem cur) px py)) as [Hrest | _];
        destruct (decide (barPixelFrom sp sz cur rem px py)) as [Hall | Hnot];
        unfold barPixelFrom in *; try reflexivity; exfalso; lia.
    + rewrite filter_cons_False by exact Hout. rewrite IH.
      assert (Hnhead : ~ barPixelFrom sp sz cur (cellsInRowAt rem cur) px py)
        by (intros Hbar; apply Hout, Hhead, Hbar).
      destruct (decide (barPixelFrom sp sz (cur + cellsInRowAt rem cur)
                          (rem - cellsInRowAt rem cur) px py)) as [Hrest | Hnrest];
        destruct (decide (barPixelFrom sp sz cur rem px py)) as [Hall | Hnot];
        unfold barPixelFrom in *; try reflexivity; exfalso; lia.
Qed.

End PaintedPixels.

(** Every segment of a walk is the turn of the loop at its own position;
    the first starts where the walk starts, each next one where the one
    before ends, and the last ends where the span ends. *)
Lemma drawItemLoop_chain (sp sz rem cur : Z) (k : nat) (s : Segment) :
  cur + rem = sp + sz ->
  drawItemLoop sp sz rem cur !! k = Some s ->
  s = segmentAt sp sz (sp + sz - currentPosition s) (currentPosition s)
  /\ (k = 0%nat -> currentPosition s = cur)
  /\ (forall s' : Segment,
        drawItemLoop sp sz rem cur !! S k = Some s' ->
        currentPosition s' = currentPosition s + cellsInRow s)
  /\ (S k = length (drawItemLoop sp sz rem cur) ->
      currentPosition s + cellsInRow s = sp + sz).
Proof.
  revert rem cur k s.
  apply (drawItemLoop_turns sp sz
           (fun rem cur l =>
              forall (k : nat) (s : Segment),
                cur + rem = sp + sz ->
                l !! k = Some s ->
                s = segmentAt sp sz (sp + sz - currentPosition s)
                      (currentPosition s)
                /\ (k = 0%nat -> currentPosition s = cur)
                /\ (forall s' : Segment,
                      l !! S k = Some s' ->
                      currentPosition s' = currentPosition s + cellsInRow s)
                /\ (S k = length l ->
                    currentPosition s + cellsInRow s = sp + sz))).
  - intros rem cur _ k s _ Hk. discriminate Hk.
  - intros rem cur Hpos IH k s Hinv Hk.
    pose proof (cellsInRowAt_bounds rem cur Hpos) as Hb.
    destruct k as [| k].
    + injection Hk as <-.
      change (currentPosition (segmentAt sp sz rem cur)) with cur.
      change (cellsInRow (segmentAt sp sz rem cur))
        with (cellsInRowAt rem cur).
      split; [replace (sp + sz - cur) with rem by lia; reflexivity |].
      split; [reflexivity |]. split.
      * intros s' Hs'. simpl in Hs'.
        destruct (IH 0%nat s' ltac:(lia) Hs') as (_ & Hfirst & _).
        exact (Hfirst eq_refl).
      * simpl length. intros Hlen.
        destruct (drawItemLoop sp sz (rem - cellsInRowAt rem cur)
                    (cur + cellsInRowAt rem cur)) as [| s' rest] eqn:Hrest;
          [| simpl in Hlen; lia].
        apply drawItemLoop_nil in Hrest. lia.
    + simpl in Hk.
      destruct (IH k s ltac:(lia) Hk) as (Hs & _ & Hnext & Hlast).
      split; [exact Hs |]. split; [intros Hk0; discriminate Hk0 |].
      split; [exact Hnext |].
      simpl length. intros Hlen. apply Hlast. lia.
Qed.

(** C7 (as the code has it).  For an item that starts at a cell of the grid
    proper ([0 <= startingPosition]) the renderer splits the span into
    row-segments.  Segment 0 starts at [startingPosition], each next one
    where the one before ends, and the last one ends with the span.  A
    segment takes [min (remainingSize, cols - currentColumn)] cells,
    [remainingSize] being what is left of the span at its first cell; it has
    a cell or more, all on one row of the grid; and it is painted as the
    rectangle of these cells, 4 pixels in at the top and the bottom and at
    the two ends of the bar.  Exactly one rectangle covers each pixel of the
    bar and none covers any other pixel.  For start 5 and size 10 on 8
    columns there are exactly two segments: cells 5-7 (3 cells, row 0) and
    cells 8-14 (7 cells, row 1). *)
Theorem renderer_row_segments :
  (forall (item : Item) (k : nat) (s : Segment),
      0 <= startingPosition item ->
      drawItem item !! k = Some s ->
      (k = 0%nat -> currentPosition s = startingPosition item)
      /\ (forall s' : Segment,
            drawItem item !! S k = Some s' ->
            currentPosition s' = currentPosition s + cellsInRow s)
      /\ (S k = length (drawItem item) ->
          currentPosition s + cellsInRow s
          = startingPosition item + size item)
      /\ cellsInRow s
         = Z.min (startingPosition item + size item - currentPosition s)
             (cols - col s)
      /\ 1 <= cellsInRow s
      /\ row s = currentPosition s / cols
      /\ col s = currentPosition s mod cols
      /\ (currentPosition s + cellsInRow s - 1) / cols = row s
      /\ fillRect s
         = (col s * cellWidth + (if Nat.eqb k 0 then cellMargin else 0),
            row s * cellHeight + rowMargin,
            cellsInRow s * cellWidth
            - (if Nat.eqb k 0 then cellMargin else 0)
            - (if Nat.eqb (S k) (length (drawItem item))
               then cellMargin else 0),
            cellHeight - 2 * rowMargin))
  /\ (forall (item : Item) (px py : Z),
        0 <= startingPosition item ->
        length (filter (fun s : Segment => inRect (fillRect s) px py)
                  (drawItem item))
        = if decide (barPixel item px py) then 1%nat else 0%nat)
  /\ drawItem {| startingPosition := 5; size := 10 |}
     = [ {| currentPosition := 5; row := 0; col := 5; cellsInRow := 3;
            isFirstCell := true; isLastCell := false;
            fillRect := (404, 4, 236, 22) |};
         {| currentPosition := 8; row := 1; col := 0; cellsInRow := 7;
            isFirstCell := false; isLastCell := true;
            fillRect := (0, 34, 556, 22) |} ].
Proof.
  split; [| split].
  - intros item k s Hstart Hk. unfold drawItem in *.
    destruct (drawItemLoop_chain _ _ _ _ k s eq_refl Hk)
      as (Hs & Hfirst & Hnext & Hlast).
    pose proof (drawItemLoop_segments_ok (startingPosition item) (size item)
                  (size item) (startingPosition item)
                  ltac:(lia) eq_refl) as Hok.
    rewrite Forall_forall in Hok.
    specialize (Hok s (list_elem_of_lookup_2 _ _ _ Hk)).
    destruct Hok as (Hlo & Hhi & Hcol & Hcells & Hpos & Hfill).
    destruct (drawItemLoop_flags _ _ _ _ k s (Z.le_refl _) eq_refl Hk)
      as [Hf Hl].
    assert (Hrem : Z.rem (currentPosition s) cols = currentPosition s mod cols)
      by (apply Z.rem_mod_nonneg; unfold cols; lia).
    pose proof (f_equal cellsInRow Hs) as Hmin.
    pose proof (f_equal row Hs) as Hrow.
    pose proof (f_equal col Hs) as Hcolumn.
    unfold segmentAt in Hmin, Hrow, Hcolumn. simpl in Hmin, Hrow, Hcolumn.
    split; [exact Hfirst |]. split; [exact Hnext |]. split; [exact Hlast |].
    split; [rewrite Hcolumn; exact Hmin |].
    split; [lia |].
    split; [exact Hrow |].
    split; [rewrite <- Hrem; exact Hcolumn |].
    split.
    + symmetry.
      apply (Z.div_unique_pos _ cols (row s) (col s + cellsInRow s - 1));
        unfold cols in *; lia.
    + assert (Hfb : isFirstCell s = Nat.eqb k 0).
      { destruct (isFirstCell s), (Nat.eqb_spec k 0);
          try reflexivity; intuition congruence. }
      assert (Hlb : isLastCell s
                    = Nat.eqb (S k)
                        (length (drawItemLoop (startingPosition item)
                                   (size item) (size item)
                                   (startingPosition item)))).
      { destruct (isLastCell s), (Nat.eqb_spec (S k)
                (length (drawItemLoop (startingPosition item) (size item)
                           (size item) (startingPosition item))));
          try reflexivity; intuition congruence. }
      rewrite Hfill, Hfb, Hlb. reflexivity.
  - intros item px py Hstart. unfold drawItem, barPixel.
    apply drawItemLoop_painted; [lia | reflexivity].
  - vm_compute. reflexivity.
Qed.

(** Item 1 of [App]'s data (start 20, size 15): its middle segment fills
    row 3 and is painted without margins. *)
Lemma renderer_row_segments_witness :
  cellsInRow (segmentAt 20 15 11 24) = Z.min (20 + 15 - 24) (cols - 0)
  /\ (24 + 8 - 1) / cols = 3
  /\ fillRect (segmentAt 20 15 11 24) = (0, 94, 640, 22).
Proof.
  destruct renderer_row_segments as (Hsegments & _ & _).
  destruct (Hsegments {| startingPosition := 20; size := 15 |} 1%nat
              (segmentAt 20 15 11 24))
    as (_ & _ & _ & Hmin & _ & _ & _ & Hrow & Hrect).
  - simpl. lia.
  - reflexivity.
  - split; [exact Hmin |]. split; [exact Hrow | exact Hrect].
Defined.

(** An item of start -3 arises from [App]'s initial data by one move
    gesture: item 0 grabbed at cell 14 and taken to cell 6. *)
Example negative_start_reachable :
  let st := handleMouseDown (Some origin) App_data (pointerAt 520 45) initialState in
  applyEmitted (emitted (handleMouseMove (Some origin) App_data st
                           (pointerAt 520 15))) App_data
  = [ {| startingPosition := -3; size := 10 |};
      {| startingPosition := 20; size := 15 |} ].
Proof. reflexivity. Qed.

(** For that item the loop runs once: one piece of 10 cells counted from
    cell -3, with column -3 on row -1, painted above the canvas. *)
Example drawItem_negative_start :
  drawItem {| startingPosition := -3; size := 10 |}
  = [ {| currentPosition := -3; row := -1; col := -3; cellsInRow := 10;
         isFirstCell := true; isLastCell := true;
         fillRect := (-236, -26, 792, 22) |} ].
Proof. vm_compute. reflexivity. Qed.

(** C7 (as worded) fails: the one piece painted for start -3, size 10 runs
    from cell -3, on row -1, to cell 6, on row 0. *)
Lemma splits_into_row_segments_fails : ~ splits_into_row_segments.
Proof.
  intros Hrows.
  specialize (Hrows {| startingPosition := -3; size := 10 |}
                (segmentAt (-3) 10 10 (-3))).
  assert (Hin : segmentAt (-3) 10 10 (-3)
                ∈ drawItem {| startingPosition := -3; size := 10 |})
    by (apply (list_elem_of_lookup_2 _ 0%nat); reflexivity).
  specialize (Hrows Hin). vm_compute in Hrows. discriminate Hrows.
Qed.

(** X21.  The overlay paints item after item in list order, each by its own
    walk.  When every item starts at a cell of the grid proper, a pixel is
    covered by as many painted rectangles as there are items whose bar holds
    it: the cells of each span are painted, and a cell that several items
    hold is painted once for each of them. *)
Theorem drawItems_paint_each_span (data : list Item) (px py : Z) :
  drawItems data = data ≫= drawItem
  /\ (Forall (fun item : Item => 0 <= startingPosition item) data ->
      length (filter (fun s : Segment => inRect (fillRect s) px py)
                (drawItems data))
      = length (filter (fun item : Item => barPixel item px py) data)).
Proof.
  split; [apply drawItems_bind |].
  rewrite drawItems_bind.
  induction data as [| item rest IH]; intros Hstarts; [reflexivity |].
  apply Forall_cons in Hstarts as [Hstart Hrest].
  rewrite bind_cons, filter_app, length_app, (IH Hrest).
  unfold drawItem at 1.
  rewrite (drawItemLoop_painted (startingPosition item) (size item) px py
             (size item) (startingPosition item)) by lia.
  rewrite filter_cons. fold (barPixel item px py).
  destruct (decide (barPixel item px py)); reflexivity.
Qed.

(** Pixel (440, 15), in cell 5, lies in the bars of both items of
    [overlapping_data]: two painted rectangles cover it. *)
Lemma drawItems_paint_each_span_witness :
  length (filter (fun s : Segment => inRect (fillRect s) 440 15)
            (drawItems overlapping_data))
  = 2%nat.
Proof.
  rewrite (proj2 (drawItems_paint_each_span overlapping_data 440 15)).
  - vm_compute. reflexivity.
  - repeat constructor; simpl; lia.
Defined.
